(** * Selecty: the chat component of [src/Demo.tsx]

    A shallow embedding of the [Chat] component (message list, text input,
    staged image, camera handling, delayed stylist reply) and of the part of
    [StylistConsultationService] that mounts and unmounts it.

    Conventions of the embedding.
    - A JavaScript string is the list of its UTF-16 code units.
    - The hooks of one mounted [Chat] are a record [ChatState]; the browser
      side (clock, timer queue, media streams, pending promises, console) and
      the mounted instance form a [World].
    - Handlers are written in a small state monad over [World].  A handler is
      a closure made by a render: it reads [messages], [inputMessage] and
      [capturedImage] from that render and reads refs at call time.
    - A state setter of an instance that is no longer mounted changes
      nothing (React drops updates of unmounted components).
    - Every callback runs to completion.  [step] and [run] deliver each
      event to the handlers of a render that shows the current state;
      [deliver] on [Live] also covers the click that comes after a timer,
      promise or file-reader callback and before the re-render, and so
      reaches the handlers of the render before. *)

From Stdlib Require Import NArith List Bool Lia Sorted.
From stdpp Require Import base list.
Import ListNotations.

Local Open Scope N_scope.

(** ** JavaScript strings *)

Definition JsString := list N.

(** [WhiteSpace] and [LineTerminator] of ECMA-262: what
    [String.prototype.trim] strips. *)
Definition isWhiteSpace (c : N) : bool :=
  (c =? 0x9) || (c =? 0xA) || (c =? 0xB) || (c =? 0xC) || (c =? 0xD)
  || (c =? 0x20) || (c =? 0xA0) || (c =? 0x1680)
  || ((0x2000 <=? c) && (c <=? 0x200A))
  || (c =? 0x2028) || (c =? 0x2029) || (c =? 0x202F) || (c =? 0x205F)
  || (c =? 0x3000) || (c =? 0xFEFF).

Fixpoint trimStart (s : JsString) : JsString :=
  match s with
  | [] => []
  | c :: r => if isWhiteSpace c then trimStart r else s
  end.

Definition trimEnd (s : JsString) : JsString := rev (trimStart (rev s)).

Definition trim (s : JsString) : JsString := trimEnd (trimStart s).

(** Truthiness of a string: the empty string is falsy. *)
Definition truthy (s : JsString) : bool :=
  match s with [] => false | _ :: _ => true end.

(** Truthiness of [string | null]. *)
Definition truthyOpt (o : option JsString) : bool :=
  match o with Some s => truthy s | None => false end.

(** ** Types of the source *)

(** [interface Stylist]; the display-only fields (name, photo, introduction,
    specialty, rating) play no part in the chat and are left out. *)
Record Stylist := { stylist_id : N; isOnline : bool }.

Inductive Sender := user | stylist.

(** [interface Message]; [image] absent or [null] is [None]. *)
Record Message := { text : JsString; sender : Sender; image : option JsString }.

(** ** Media objects *)

Inductive ReadyState := live | ended.

(** A [MediaStream] is the list of the ready states of its tracks. *)
Definition MediaStream := list ReadyState.

Definition isLive (t : ReadyState) : bool :=
  match t with live => true | ended => false end.

(** [MediaStream.active]: some track has not ended. *)
Definition active (s : MediaStream) : bool := existsb isLive s.

(** [track.stop()] on every track of [getTracks()]. *)
Definition stopAll (s : MediaStream) : MediaStream := map (fun _ => ended) s.

(** The [<video>] element: [srcObject] holds the id of a stream. *)
Record HTMLVideoElement := { srcObject : option nat }.

Record HTMLCanvasElement := { width : N; height : N }.

(** ** State of one mounted [Chat] *)

Record ChatState := {
  messages : list Message;
  inputMessage : JsString;
  showImageUpload : bool;
  capturedImage : option JsString;
  videoRef : option HTMLVideoElement;   (* videoRef.current *)
  canvasRef : option HTMLCanvasElement  (* canvasRef.current *)
}.

Definition initialChat : ChatState :=
  {| messages := []; inputMessage := []; showImageUpload := false;
     capturedImage := None; videoRef := None; canvasRef := None |}.

Record ChatInstance := { self : nat; props : Stylist; hooks : ChatState }.

(** ** The world around the component *)

(** The only callback ever handed to [setTimeout]: the reply closure of the
    instance that sent a message. *)
Inductive TimerCallback := ReplyTo (target : nat).

Definition targetOf (cb : TimerCallback) : nat :=
  match cb with ReplyTo i => i end.

Record Timer := { due : N; callback : TimerCallback }.

Inductive LogEntry := CameraStartFailed.

Record World := {
  clock : N;                           (* milliseconds *)
  timers : list Timer;                 (* armed timers, oldest first *)
  streams : list MediaStream;          (* every stream handed out, by id *)
  pendingMedia : list nat;             (* getUserMedia promises, by awaiting instance *)
  pendingReads : list (nat * JsString);(* FileReader reads under way *)
  console : list LogEntry;
  nextInstance : nat;
  chat : option ChatInstance           (* the mounted Chat, if a stylist is selected *)
}.

Definition selectedStylist (w : World) : option Stylist := props <$> chat w.

Definition initialWorld : World :=
  {| clock := 0; timers := []; streams := []; pendingMedia := [];
     pendingReads := []; console := []; nextInstance := 0%nat; chat := None |}.

(** Field updates. *)
Definition withClock (t : N) (w : World) : World :=
  {| clock := t; timers := timers w; streams := streams w;
     pendingMedia := pendingMedia w; pendingReads := pendingReads w;
     console := console w; nextInstance := nextInstance w; chat := chat w |}.

Definition withTimers (ts : list Timer) (w : World) : World :=
  {| clock := clock w; timers := ts; streams := streams w;
     pendingMedia := pendingMedia w; pendingReads := pendingReads w;
     console := console w; nextInstance := nextInstance w; chat := chat w |}.

Definition withStreams (ss : list MediaStream) (w : World) : World :=
  {| clock := clock w; timers := timers w; streams := ss;
     pendingMedia := pendingMedia w; pendingReads := pendingReads w;
     console := console w; nextInstance := nextInstance w; chat := chat w |}.

Definition withPendingMedia (p : list nat) (w : World) : World :=
  {| clock := clock w; timers := timers w; streams := streams w;
     pendingMedia := p; pendingReads := pendingReads w;
     console := console w; nextInstance := nextInstance w; chat := chat w |}.

Definition withPendingReads (p : list (nat * JsString)) (w : World) : World :=
  {| clock := clock w; timers := timers w; streams := streams w;
     pendingMedia := pendingMedia w; pendingReads := p;
     console := console w; nextInstance := nextInstance w; chat := chat w |}.

Definition withConsole (c : list LogEntry) (w : World) : World :=
  {| clock := clock w; timers := timers w; streams := streams w;
     pendingMedia := pendingMedia w; pendingReads := pendingReads w;
     console := c; nextInstance := nextInstance w; chat := chat w |}.

Definition withChat (c : option ChatInstance) (w : World) : World :=
  {| clock := clock w; timers := timers w; streams := streams w;
     pendingMedia := pendingMedia w; pendingReads := pendingReads w;
     console := console w; nextInstance := nextInstance w; chat := c |}.

Definition withHooks (h : ChatState) (m : ChatInstance) : ChatInstance :=
  {| self := self m; props := props m; hooks := h |}.

(** ** The handler monad *)

Definition M (A : Type) : Type := World -> A * World.

Definition ret {A} (a : A) : M A := fun w => (a, w).

Definition bind {A B} (c : M A) (k : A -> M B) : M B :=
  fun w => let (a, w') := c w in k a w'.

Notation "x <- c1 ;; c2" := (bind c1 (fun x => c2))
  (at level 100, c1 at next level, right associativity).
Notation "c1 ;; c2" := (bind c1 (fun _ => c2))
  (at level 100, right associativity).

Definition exec {A} (c : M A) (w : World) : World := snd (c w).

(** A state update of instance [i]: applied when [i] is the mounted
    instance, dropped otherwise. *)
Definition updateHooks (i : nat) (f : ChatState -> ChatState) : M unit :=
  fun w =>
    match chat w with
    | Some m =>
        if Nat.eqb (self m) i
        then (tt, withChat (Some (withHooks (f (hooks m)) m)) w)
        else (tt, w)
    | None => (tt, w)
    end.

(** An argument of a state setter: a value, or a function of the previous
    state. *)
Inductive SetStateAction (A : Type) :=
| Value (v : A)
| Updater (f : A -> A).
Arguments Value {A} v.
Arguments Updater {A} f.

Definition resolve {A} (a : SetStateAction A) (prev : A) : A :=
  match a with Value v => v | Updater f => f prev end.

Definition setMessages (i : nat) (a : SetStateAction (list Message)) : M unit :=
  updateHooks i (fun c =>
    {| messages := resolve a (messages c); inputMessage := inputMessage c;
       showImageUpload := showImageUpload c; capturedImage := capturedImage c;
       videoRef := videoRef c; canvasRef := canvasRef c |}).

Definition setInputMessage (i : nat) (v : JsString) : M unit :=
  updateHooks i (fun c =>
    {| messages := messages c; inputMessage := v;
       showImageUpload := showImageUpload c; capturedImage := capturedImage c;
       videoRef := videoRef c; canvasRef := canvasRef c |}).

Definition setShowImageUpload (i : nat) (v : bool) : M unit :=
  updateHooks i (fun c =>
    {| messages := messages c; inputMessage := inputMessage c;
       showImageUpload := v; capturedImage := capturedImage c;
       videoRef := videoRef c; canvasRef := canvasRef c |}).

Definition setCapturedImage (i : nat) (v : option JsString) : M unit :=
  updateHooks i (fun c =>
    {| messages := messages c; inputMessage := inputMessage c;
       showImageUpload := showImageUpload c; capturedImage := v;
       videoRef := videoRef c; canvasRef := canvasRef c |}).

(** [videoRef.current] and [canvasRef.current] as instance [i] sees them:
    [null] once the instance (or the element) is unmounted. *)
Definition videoRefCurrent (i : nat) : M (option HTMLVideoElement) :=
  fun w =>
    match chat w with
    | Some m => if Nat.eqb (self m) i then (videoRef (hooks m), w) else (None, w)
    | None => (None, w)
    end.

Definition canvasRefCurrent (i : nat) : M (option HTMLCanvasElement) :=
  fun w =>
    match chat w with
    | Some m => if Nat.eqb (self m) i then (canvasRef (hooks m), w) else (None, w)
    | None => (None, w)
    end.

(** [videoRef.current.srcObject = stream]. *)
Definition setSrcObject (i : nat) (s : option nat) : M unit :=
  updateHooks i (fun c =>
    {| messages := messages c; inputMessage := inputMessage c;
       showImageUpload := showImageUpload c; capturedImage := capturedImage c;
       videoRef := (fun _ => {| srcObject := s |}) <$> videoRef c;
       canvasRef := canvasRef c |}).

(** [setTimeout(cb, delay)]. *)
Definition setTimeout (cb : TimerCallback) (delay : N) : M unit :=
  fun w => (tt, withTimers (timers w ++ [{| due := clock w + delay; callback := cb |}]) w).

Definition consoleError (e : LogEntry) : M unit :=
  fun w => (tt, withConsole (console w ++ [e]) w).

(** A stream granted by [getUserMedia({ video: true })]: one live video
    track; its id is its position in the world's list of streams. *)
Definition newStream : M nat :=
  fun w => (length (streams w), withStreams (streams w ++ [[live]]) w).

(** [stream.getTracks().forEach(track => track.stop())]. *)
Definition stopTracks (sid : nat) : M unit :=
  fun w => (tt, withStreams (alter stopAll sid (streams w)) w).

(** ** The handlers of [Chat] *)

(** The fixed reply text of the source, as UTF-16 code units
    (twenty characters, from U+30B9 to the closing U+3002). *)
Definition placeholder : JsString :=
  [0x30B9; 0x30BF; 0x30A4; 0x30EA; 0x30B9; 0x30C8; 0x304B; 0x3089; 0x306E;
   0x8FD4; 0x4FE1; 0x3092; 0x304A; 0x5F85; 0x3061; 0x304F; 0x3060; 0x3055;
   0x3044; 0x3002].

Definition reply : Message :=
  {| text := placeholder; sender := stylist; image := None |}.

(** The updater the timer callback passes to [setMessages]. *)
Definition appendReply (prev : list Message) : list Message := prev ++ [reply].

Definition runCallback (cb : TimerCallback) : M unit :=
  match cb with
  | ReplyTo i => setMessages i (Updater appendReply)
  end.

Definition newMessage (r : ChatState) : Message :=
  {| text := inputMessage r; sender := user; image := capturedImage r |}.

(** [handleSendMessage], as the closure of instance [i] made by render [r]. *)
Definition handleSendMessage (i : nat) (r : ChatState) : M unit :=
  if truthy (trim (inputMessage r)) || truthyOpt (capturedImage r) then
    setMessages i (Value (messages r ++ [newMessage r])) ;;
    setInputMessage i [] ;;
    setCapturedImage i None ;;
    setTimeout (ReplyTo i) 1000
  else ret tt.

Inductive MediaOutcome := Granted | Refused.

(** [startCamera] up to its [await]: the request is under way. *)
Definition startCamera (i : nat) : M unit :=
  fun w => (tt, withPendingMedia (pendingMedia w ++ [i]) w).

(** [startCamera] from its [await] on, once the promise has settled. *)
Definition startCamera_resume (i : nat) (o : MediaOutcome) : M unit :=
  match o with
  | Granted =>
      stream <- newStream ;;
      v <- videoRefCurrent i ;;
      match v with
      | Some _ => setSrcObject i (Some stream)
      | None => ret tt
      end
  | Refused => consoleError CameraStartFailed
  end.

Definition stopCamera (i : nat) : M unit :=
  v <- videoRefCurrent i ;;
  match v with
  | Some el =>
      match srcObject el with
      | Some sid => stopTracks sid
      | None => ret tt
      end
  | None => ret tt
  end.

(** [captureImage]; [imageDataUrl] is what [toDataURL('image/jpeg')] returns
    for the canvas after [drawImage]. *)
Definition captureImage (i : nat) (imageDataUrl : JsString) : M unit :=
  c <- canvasRefCurrent i ;;
  v <- videoRefCurrent i ;;
  match c, v with
  | Some _, Some _ =>
      setCapturedImage i (Some imageDataUrl) ;;
      stopCamera i
  | _, _ => ret tt
  end.

(** [handleFileUpload]; [file] is the data URL the reader will produce for
    the chosen file, [None] when no file was chosen. *)
Definition handleFileUpload (i : nat) (file : option JsString) : M unit :=
  match file with
  | Some url => fun w => (tt, withPendingReads (pendingReads w ++ [(i, url)]) w)
  | None => ret tt
  end.

(** [reader.onload]. *)
Definition readerOnload (i : nat) (result : JsString) : M unit :=
  setCapturedImage i (Some result).

(** ** Rendering and events *)

(** What a render does to the refs: the [<video>] and [<canvas>] elements
    exist exactly while [showImageUpload] holds; an element that stays
    mounted keeps its properties. *)
Definition reconcile (c : ChatState) : ChatState :=
  {| messages := messages c; inputMessage := inputMessage c;
     showImageUpload := showImageUpload c; capturedImage := capturedImage c;
     videoRef :=
       if showImageUpload c
       then Some (default {| srcObject := None |} (videoRef c))
       else None;
     canvasRef :=
       if showImageUpload c
       then Some (default {| width := 300; height := 150 |} (canvasRef c))
       else None |}.

Definition render (w : World) : World :=
  withChat ((fun m => withHooks (reconcile (hooks m)) m) <$> chat w) w.

(** [onSelectStylist]: a new [Chat] is mounted with fresh state. *)
Definition mount (s : Stylist) (w : World) : World :=
  {| clock := clock w; timers := timers w; streams := streams w;
     pendingMedia := pendingMedia w; pendingReads := pendingReads w;
     console := console w; nextInstance := S (nextInstance w);
     chat := Some {| self := nextInstance w; props := s; hooks := initialChat |} |}.

(** [onBack]: [setSelectedStylist(null)] unmounts the [Chat]; its state is
    discarded.  Nothing else is touched. *)
Definition unmount (w : World) : World := withChat None w.

Definition isDue (t : N) (tm : Timer) : bool := due tm <=? t.

Definition fire (w : World) (tm : Timer) : World := exec (runCallback (callback tm)) w.

(** Time passes: the timers that have come due run, oldest first (every
    timer is armed with the same delay, so this is the order of their due
    times), and leave the queue. *)
Definition advance (dt : N) (w : World) : World :=
  let t := clock w + dt in
  fold_left fire (List.filter (isDue t) (timers w))
    (withTimers (List.filter (fun tm => negb (isDue t tm)) (timers w)) (withClock t w)).

Inductive Event :=
| SelectStylist (s : Stylist)          (* the consult button of a profile card *)
| Back                                 (* the back arrow of the chat *)
| TypeText (v : JsString)              (* onChange of the text field *)
| ClickSend
| OpenImageUpload                      (* setShowImageUpload(true) *)
| ClickDone                            (* setShowImageUpload(false) *)
| ClickStartCamera
| MediaSettles (o : MediaOutcome)      (* the oldest getUserMedia promise settles *)
| ClickCapture (imageDataUrl : JsString)
| ChooseFile (file : option JsString)
| ReadSettles (ok : bool)              (* the oldest FileReader read ends *)
| DiscardCaptured                      (* the close button on the staged image *)
| Advance (dt : N).

(** Run a handler of the mounted [Chat], if there is one, as made by a
    render of the current state; [onChatWith] below takes the render. *)
Definition onChat (w : World) (k : nat -> ChatState -> M unit) : World :=
  match chat w with
  | Some m => exec (k (self m) (hooks m)) w
  | None => w
  end.

(** A control that is not rendered cannot be used: the text field and the
    send button exist outside the image panel, the camera, file and capture
    controls inside it. *)
Definition handle (e : Event) (w : World) : World :=
  match e with
  | SelectStylist s =>
      match chat w with None => mount s w | Some _ => w end
  | Back =>
      match chat w with Some _ => unmount w | None => w end
  | TypeText v =>
      onChat w (fun i r => if showImageUpload r then ret tt else setInputMessage i v)
  | ClickSend =>
      onChat w (fun i r => if showImageUpload r then ret tt else handleSendMessage i r)
  | OpenImageUpload =>
      onChat w (fun i _ => setShowImageUpload i true)
  | ClickDone =>
      onChat w (fun i r => if showImageUpload r then setShowImageUpload i false else ret tt)
  | ClickStartCamera =>
      onChat w (fun i r => if showImageUpload r then startCamera i else ret tt)
  | MediaSettles o =>
      match pendingMedia w with
      | i :: rest => exec (startCamera_resume i o) (withPendingMedia rest w)
      | [] => w
      end
  | ClickCapture url =>
      onChat w (fun i r => if showImageUpload r then captureImage i url else ret tt)
  | ChooseFile file =>
      onChat w (fun i r => if showImageUpload r then handleFileUpload i file else ret tt)
  | ReadSettles ok =>
      match pendingReads w with
      | (i, url) :: rest =>
          if ok then exec (readerOnload i url) (withPendingReads rest w)
          else withPendingReads rest w
      | [] => w
      end
  | DiscardCaptured =>
      onChat w (fun i r =>
        if showImageUpload r && truthyOpt (capturedImage r)
        then setCapturedImage i None else ret tt)
  | Advance dt => advance dt w
  end.

Definition step (e : Event) (w : World) : World := render (handle e w).

Definition run (es : list Event) (w : World) : World := fold_left (fun w e => step e w) es w.

(** The worlds the application can be in. *)
Inductive reachable : World -> Prop :=
| reachable_init : reachable initialWorld
| reachable_step e w : reachable w -> reachable (step e w).

(** ** Observations *)

(** [peek()] of the staging area of the mounted chat. *)
Definition peek (w : World) : option JsString :=
  match chat w with
  | Some m => capturedImage (hooks m)
  | None => None
  end.

(** [snapshot()] of the timeline of the mounted chat. *)
Definition snapshot (w : World) : list Message :=
  match chat w with
  | Some m => messages (hooks m)
  | None => []
  end.

(** The stream bound to the preview of the mounted chat. *)
Definition boundStream (w : World) : option nat :=
  match chat w with
  | Some m =>
      match videoRef (hooks m) with
      | Some el => srcObject el
      | None => None
      end
  | None => None
  end.

(** Whether the bound stream still has a live track. *)
Definition cameraActive (w : World) : bool :=
  match boundStream w with
  | Some sid =>
      match streams w !! sid with
      | Some s => active s
      | None => false
      end
  | None => false
  end.

(** How many of the streams handed out are still live, bound or not. *)
Definition liveStreams (w : World) : nat := length (List.filter active (streams w)).

(** The messages an event asks the timeline of the mounted chat to take, in
    order: the user message of an accepted send, and one reply for each
    timer of the mounted chat that comes due. *)
Definition appended (e : Event) (w : World) : list Message :=
  match chat w with
  | Some m =>
      match e with
      | ClickSend =>
          if negb (showImageUpload (hooks m))
             && (truthy (trim (inputMessage (hooks m)))
                 || truthyOpt (capturedImage (hooks m)))
          then [newMessage (hooks m)] else []
      | Advance dt =>
          map (fun _ => reply)
            (List.filter (fun tm => isDue (clock w + dt) tm
                                    && Nat.eqb (self m) (targetOf (callback tm)))
               (timers w))
      | _ => []
      end
  | None => []
  end.

Fixpoint appendLog (es : list Event) (w : World) : list Message :=
  match es with
  | [] => []
  | e :: es' => appended e w ++ appendLog es' (step e w)
  end.

(** Code units of an ASCII text, for examples. *)
Definition hi : JsString := [0x68; 0x69].

Definition hanako : Stylist := {| stylist_id := 1; isOnline := true |}.

(** ** Worlds used in examples *)

Definition freshChat : World := run [SelectStylist hanako] initialWorld.

Definition typedHi : World := run [SelectStylist hanako; TypeText hi] initialWorld.

(** A single space typed into the text field. *)
Definition typedBlank : World :=
  run [SelectStylist hanako; TypeText [0x20]] initialWorld.

Definition sentHi : World :=
  run [SelectStylist hanako; TypeText hi; ClickSend] initialWorld.

Definition panelOpen : World :=
  run [SelectStylist hanako; OpenImageUpload] initialWorld.

Definition cameraOn : World :=
  run [SelectStylist hanako; OpenImageUpload; ClickStartCamera; MediaSettles Granted]
    initialWorld.

Definition cameraTwice : World :=
  run [ClickStartCamera; MediaSettles Granted] cameraOn.

(** A data URL as [toDataURL] could return it; only its prefix [data:] is
    written out. *)
Definition someDataUrl : JsString := [0x64; 0x61; 0x74; 0x61; 0x3A].

(** The instance mounted in a world; the default is never used in the
    examples. *)
Definition mounted_in (w : World) : ChatInstance :=
  default {| self := 0%nat; props := hanako; hooks := initialChat |} (chat w).

(** ** Auxiliary states and the instance invariant *)

(** The hooks after an accepted send made from render [r]. *)
Definition afterSend (r : ChatState) : ChatState :=
  {| messages := messages r ++ [newMessage r]; inputMessage := [];
     showImageUpload := showImageUpload r; capturedImage := None;
     videoRef := videoRef r; canvasRef := canvasRef r |}.

(** The hooks with [v] staged. *)
Definition staged (v : option JsString) (r : ChatState) : ChatState :=
  {| messages := messages r; inputMessage := inputMessage r;
     showImageUpload := showImageUpload r; capturedImage := v;
     videoRef := videoRef r; canvasRef := canvasRef r |}.

(** The instance with [ms] appended to its messages. *)
Definition appendMessages (ms : list Message) (m : ChatInstance) : ChatInstance :=
  withHooks
    {| messages := messages (hooks m) ++ ms; inputMessage := inputMessage (hooks m);
       showImageUpload := showImageUpload (hooks m);
       capturedImage := capturedImage (hooks m);
       videoRef := videoRef (hooks m); canvasRef := canvasRef (hooks m) |} m.

Definition repliesFor (i : nat) (ts : list Timer) : list Message :=
  map (fun _ => reply)
    (List.filter (fun tm => Nat.eqb i (targetOf (callback tm))) ts).

(** Instance ids are handed out in order: every armed timer, every pending
    promise and the mounted chat belong to an instance already created. *)
Definition wellFormed (w : World) : Prop :=
  Forall (fun tm => (targetOf (callback tm) < nextInstance w)%nat) (timers w)
  /\ match chat w with
     | Some m => (self m < nextInstance w)%nat
     | None => True
     end.

(** ** Further observations *)

(** The text in the text field of the mounted chat. *)
Definition typed (w : World) : JsString :=
  match chat w with
  | Some m => inputMessage (hooks m)
  | None => []
  end.

(** The guard of [handleSendMessage]. *)
Definition accepts (r : ChatState) : bool :=
  truthy (trim (inputMessage r)) || truthyOpt (capturedImage r).

(** The instance id of the mounted chat ([0] when none is mounted). *)
Definition selfOf (w : World) : nat :=
  match chat w with Some m => self m | None => 0%nat end.

(** The timer queue after an event: a send arms one timer for each message
    it appends, the passing of time removes the timers that fire. *)
Definition timersAfter (e : Event) (w : World) : list Timer :=
  match e with
  | ClickSend =>
      timers w ++ map (fun _ => {| due := clock w + 1000; callback := ReplyTo (selfOf w) |})
                    (appended ClickSend w)
  | Advance dt => List.filter (fun tm => negb (isDue (clock w + dt) tm)) (timers w)
  | _ => timers w
  end.

Definition clockAfter (e : Event) (w : World) : N :=
  match e with Advance dt => clock w + dt | _ => clock w end.

Definition isUser (msg : Message) : bool :=
  match sender msg with user => true | stylist => false end.

Definition fromUser (l : list Message) : nat := length (List.filter isUser l).

Definition fromStylist (l : list Message) : nat :=
  length (List.filter (fun msg => negb (isUser msg)) l).

(** The timers armed for instance [i]. *)
Definition pendingFor (i : nat) (ts : list Timer) : nat :=
  length (List.filter (fun tm => Nat.eqb i (targetOf (callback tm))) ts).

(** Read a timeline from its start, counting the user messages not yet
    answered; [None] if a reply comes with no user message left to answer. *)
Fixpoint unanswered (acc : nat) (l : list Message) : option nat :=
  match l with
  | [] => Some acc
  | msg :: rest =>
      if isUser msg then unanswered (S acc) rest
      else match acc with
           | O => None
           | S acc' => unanswered acc' rest
           end
  end.

(** A message as the timeline may hold it: the fixed reply, or a user
    message that passed the guard of the send. *)
Definition wellFormedMessage (msg : Message) : Prop :=
  match sender msg with
  | user => truthy (trim (text msg)) || truthyOpt (image msg) = true
  | stylist => msg = reply
  end.

(** The timer queue is in the order of the due times, and every armed timer
    is due later than now and at most 1000 ms from now. *)
Definition timersInOrder (w : World) : Prop :=
  StronglySorted (fun a b => due a <= due b) (timers w)
  /\ Forall (fun tm => clock w < due tm <= clock w + 1000) (timers w).

(** Every pending promise and file read belongs to an instance already
    created. *)
Definition pendingKnown (w : World) : Prop :=
  Forall (fun i => (i < nextInstance w)%nat) (pendingMedia w)
  /\ Forall (fun p => (fst p < nextInstance w)%nat) (pendingReads w).

(** The image panel closed again while the camera runs. *)
Definition panelClosed : World := step ClickDone cameraOn.

(** The camera asked for, and the image panel closed before the answer. *)
Definition askedThenClosed : World := run [ClickStartCamera; ClickDone] panelOpen.

(** ** The booking modal *)

(** [BookingModal] and the [bookingStylist] state of the application.  The
    modal component stays mounted while the application runs, so its [date]
    and [time] outlive the dialog being closed.  [stylist.name] is a display
    field left out of [Stylist]; it is taken as [nameOf]. *)
Section BookingModal.

Variable nameOf : Stylist -> JsString.

Record BookingState := {
  bookingStylist : option Stylist;
  date : JsString;
  time : JsString;
  bookingLog : list JsString          (* lines written by console.log *)
}.

Definition initialBooking : BookingState :=
  {| bookingStylist := None; date := []; time := []; bookingLog := [] |}.

(** [open={!!bookingStylist}]. *)
Definition isOpen (b : BookingState) : bool :=
  match bookingStylist b with Some _ => true | None => false end.

Definition setBookingStylist (s : option Stylist) (b : BookingState) : BookingState :=
  {| bookingStylist := s; date := date b; time := time b;
     bookingLog := bookingLog b |}.

Definition setDate (v : JsString) (b : BookingState) : BookingState :=
  {| bookingStylist := bookingStylist b; date := v; time := time b;
     bookingLog := bookingLog b |}.

Definition setTime (v : JsString) (b : BookingState) : BookingState :=
  {| bookingStylist := bookingStylist b; date := date b; time := v;
     bookingLog := bookingLog b |}.

(** [onClose]: [setBookingStylist(null)]. *)
Definition onClose (b : BookingState) : BookingState := setBookingStylist None b.

(** The template literal of [handleBooking], with the code units of
    [Booking for ], [ on ] and [ at ]. *)
Definition bookingLine (s : Stylist) (d t : JsString) : JsString :=
  [0x42; 0x6F; 0x6F; 0x6B; 0x69; 0x6E; 0x67; 0x20; 0x66; 0x6F; 0x72; 0x20]
  ++ nameOf s ++ [0x20; 0x6F; 0x6E; 0x20] ++ d ++ [0x20; 0x61; 0x74; 0x20] ++ t.

Definition consoleLog (line : JsString) (b : BookingState) : BookingState :=
  {| bookingStylist := bookingStylist b; date := date b; time := time b;
     bookingLog := bookingLog b ++ [line] |}.

Definition handleBooking (b : BookingState) : BookingState :=
  onClose
    (match bookingStylist b with
     | Some s => consoleLog (bookingLine s (date b) (time b)) b
     | None => b
     end).

Inductive BookingEvent :=
| ClickBook (s : Stylist)             (* the booking button of a profile card *)
| ChangeDate (v : JsString)
| ChangeTime (v : JsString)
| ClickConfirm                        (* handleBooking *)
| ClickCancel.                        (* the cancel button, or the dialog's own onClose *)

(** The handlers as the controls call them.  The form and its buttons stay
    in the page while the dialog closes, so they can be reached with no
    stylist set: the only guard is the one in [handleBooking]. *)
Definition bookingStep (e : BookingEvent) (b : BookingState) : BookingState :=
  match e with
  | ClickBook s => setBookingStylist (Some s) b
  | ChangeDate v => setDate v b
  | ChangeTime v => setTime v b
  | ClickConfirm => handleBooking b
  | ClickCancel => onClose b
  end.

Definition bookingRun (es : list BookingEvent) (b : BookingState) : BookingState :=
  fold_left (fun b e => bookingStep e b) es b.

(** How many of the events are confirmations made with a stylist set. *)
Fixpoint confirmations (es : list BookingEvent) (b : BookingState) : nat :=
  match es with
  | [] => 0%nat
  | e :: es' =>
      ((match e with ClickConfirm => if isOpen b then 1 else 0 | _ => 0 end)
       + confirmations es' (bookingStep e b))%nat
  end.

End BookingModal.

(** ** Clicks that come before the re-render *)

(** State set by a timer, a settled promise or a file reader is rendered in
    a later task; a click or a key stroke is rendered before the next event.
    So a click can reach the handlers of a render that no longer shows the
    current state.  [Live] keeps, beside the world, the state the last
    render closed over. *)
Definition isCallback (e : Event) : bool :=
  match e with
  | Advance _ | MediaSettles _ | ReadSettles _ => true
  | _ => false
  end.

(** Run a handler of the mounted [Chat] made by render [r]. *)
Definition onChatWith (r : ChatState) (w : World) (k : nat -> ChatState -> M unit) : World :=
  match chat w with
  | Some m => exec (k (self m) r) w
  | None => w
  end.

(** [handle] for the handlers and the controls of render [r]. *)
Definition handleClosure (r : ChatState) (e : Event) (w : World) : World :=
  match e with
  | TypeText v =>
      onChatWith r w (fun i r => if showImageUpload r then ret tt else setInputMessage i v)
  | ClickSend =>
      onChatWith r w (fun i r => if showImageUpload r then ret tt else handleSendMessage i r)
  | OpenImageUpload =>
      onChatWith r w (fun i _ => setShowImageUpload i true)
  | ClickDone =>
      onChatWith r w (fun i r => if showImageUpload r then setShowImageUpload i false else ret tt)
  | ClickStartCamera =>
      onChatWith r w (fun i r => if showImageUpload r then startCamera i else ret tt)
  | ClickCapture url =>
      onChatWith r w (fun i r => if showImageUpload r then captureImage i url else ret tt)
  | ChooseFile file =>
      onChatWith r w (fun i r => if showImageUpload r then handleFileUpload i file else ret tt)
  | DiscardCaptured =>
      onChatWith r w (fun i r =>
        if showImageUpload r && truthyOpt (capturedImage r)
        then setCapturedImage i None else ret tt)
  | SelectStylist _ | Back | MediaSettles _ | ReadSettles _ | Advance _ => handle e w
  end.

Record Live := {
  world : World;
  closure : option ChatState           (* what the last render closed over *)
}.

Definition initialLive : Live := {| world := initialWorld; closure := None |}.

Inductive Delivery :=
| Deliver (e : Event)
| Rerender.                            (* the render scheduled by a callback takes place *)

(** A callback changes the state and leaves the render for later; a click
    or a key stroke runs the handler of the last render and is followed by a
    render at once. *)
Definition deliver (d : Delivery) (l : Live) : Live :=
  match d with
  | Rerender =>
      {| world := render (world l); closure := hooks <$> chat (render (world l)) |}
  | Deliver e =>
      if isCallback e
      then {| world := handle e (world l); closure := closure l |}
      else
        let w' := render (match closure l with
                          | Some r => handleClosure r e (world l)
                          | None => handle e (world l)
                          end) in
        {| world := w'; closure := hooks <$> chat w' |}
  end.

Definition deliverAll (ds : list Delivery) (l : Live) : Live :=
  fold_left (fun l d => deliver d l) ds l.

Inductive liveReachable : Live -> Prop :=
| liveReachable_init : liveReachable initialLive
| liveReachable_deliver d l : liveReachable l -> liveReachable (deliver d l).

(** What the mounted chat owes in replies, seen from the last render: the
    messages are those of the render followed by the replies that came
    since, and the timers armed for the chat, with those replies, are no
    more than the user messages the render had unanswered. *)
Definition repliesWithinOwed (l : Live) : Prop :=
  match chat (world l) with
  | Some m =>
      match closure l with
      | Some r =>
          exists k q,
            messages (hooks m) = messages r ++ repeat reply k
            /\ unanswered 0 (messages r) = Some q
            /\ (pendingFor (self m) (timers (world l)) + k <= q)%nat
      | None => False
      end
  | None => True
  end.

(** The letter [b] as a text. *)
Definition letterB : JsString := [0x62].

(** A first message sent, a second typed, and the reply to the first
    delivered by its timer; then the send button, clicked before the
    re-render or after it. *)
Definition replyDelivered : list Delivery :=
  [Deliver (SelectStylist hanako); Deliver (TypeText hi); Deliver ClickSend;
   Deliver (TypeText letterB); Deliver (Advance 1000)].

Definition replyThenSendAtOnce : list Delivery :=
  replyDelivered ++ [Deliver ClickSend].

Definition replyThenSendAfterRender : list Delivery :=
  replyDelivered ++ [Rerender; Deliver ClickSend].

(** The state after the send clicked before the re-render. *)
Definition racedSend : Live := deliverAll replyThenSendAtOnce initialLive.

(** The camera started, the panel closed and opened again. *)
Definition reopened : World := step OpenImageUpload panelClosed.

(** * Properties *)

(** ** Trimming *)

Lemma trimStart_blank (s : JsString) :
  forallb isWhiteSpace s = true -> trimStart s = [].
Proof.
  induction s as [|c r IH]; simpl; [reflexivity|].
  intros H. apply andb_prop in H as [Hc Hr]. rewrite Hc. auto.
Qed.

Lemma trimStart_nil_blank (s : JsString) :
  trimStart s = [] -> forallb isWhiteSpace s = true.
Proof.
  induction s as [|c r IH]; simpl; [reflexivity|].
  destruct (isWhiteSpace c); simpl; [exact IH | discriminate].
Qed.

Lemma trim_blank (s : JsString) :
  forallb isWhiteSpace s = true -> trim s = [].
Proof.
  intros H. unfold trim, trimEnd. rewrite (trimStart_blank s H). reflexivity.
Qed.

(** What [trimStart] keeps starts with a character that is not white space. *)
Lemma trimStart_head (s : JsString) c r :
  trimStart s = c :: r -> isWhiteSpace c = false.
Proof.
  induction s as [|d t IH]; simpl; [discriminate|].
  destruct (isWhiteSpace d) eqn:Hd; [exact IH|].
  intros [= <- _]. exact Hd.
Qed.

Lemma trimStart_existsb (s : JsString) :
  existsb (fun c => negb (isWhiteSpace c)) (trimStart s)
  = existsb (fun c => negb (isWhiteSpace c)) s.
Proof.
  induction s as [|c r IH]; simpl; [reflexivity|].
  destruct (isWhiteSpace c) eqn:Hc; simpl; [exact IH|].
  rewrite Hc. reflexivity.
Qed.

Lemma truthy_trimStart (s : JsString) :
  truthy (trimStart s) = existsb (fun c => negb (isWhiteSpace c)) s.
Proof.
  induction s as [|c r IH]; simpl; [reflexivity|].
  destruct (isWhiteSpace c); simpl; [exact IH | reflexivity].
Qed.

Lemma truthy_rev (s : JsString) : truthy (rev s) = truthy s.
Proof.
  destruct s as [|c r]; simpl; [reflexivity|].
  destruct (rev r); reflexivity.
Qed.

Lemma existsb_rev {A} (p : A -> bool) (l : list A) :
  existsb p (rev l) = existsb p l.
Proof.
  induction l as [|a l IH]; simpl; [reflexivity|].
  rewrite existsb_app, IH. simpl. rewrite orb_false_r. apply orb_comm.
Qed.

(** The trimmed text is non-empty exactly when the text has a character
    that is not white space. *)
Lemma truthy_trim (s : JsString) :
  truthy (trim s) = existsb (fun c => negb (isWhiteSpace c)) s.
Proof.
  unfold trim, trimEnd.
  rewrite truthy_rev, truthy_trimStart, existsb_rev.
  apply trimStart_existsb.
Qed.

(** ** Setters on the mounted instance *)

Lemma updateHooks_mounted (w : World) (m : ChatInstance) f :
  chat w = Some m ->
  updateHooks (self m) f w = (tt, withChat (Some (withHooks (f (hooks m)) m)) w).
Proof.
  intros H. unfold updateHooks. rewrite H, Nat.eqb_refl. reflexivity.
Qed.

Lemma updateHooks_other (w : World) (i : nat) f :
  (forall m, chat w = Some m -> self m <> i) ->
  updateHooks i f w = (tt, w).
Proof.
  intros H. unfold updateHooks. destruct (chat w) as [m|] eqn:E; [|reflexivity].
  destruct (Nat.eqb_spec (self m) i) as [e|]; [|reflexivity].
  exfalso. exact (H m eq_refl e).
Qed.

(** Reduce the run of a handler of the mounted instance. *)
Ltac mounted w m H :=
  destruct w as [clk tms sts pm pr con nxt ch];
  simpl in H; subst ch;
  destruct m as [slf prp [msgs inp siu cap vid can]];
  cbn [self hooks props messages inputMessage showImageUpload capturedImage
       videoRef canvasRef] in *.

Ltac run_handler_once :=
  cbv [exec bind ret updateHooks setMessages setInputMessage setCapturedImage
       setShowImageUpload setSrcObject setTimeout videoRefCurrent
       canvasRefCurrent stopTracks newStream consoleError resolve
       withChat withTimers withStreams withConsole withHooks withClock
       withPendingMedia withPendingReads
       chat self hooks props clock timers streams console pendingMedia
       pendingReads nextInstance snd fst];
  cbn [messages inputMessage showImageUpload capturedImage videoRef canvasRef
       srcObject];
  rewrite ?Nat.eqb_refl.

Ltac run_handler := do 4 run_handler_once.

(** ** Sending *)

Lemma handleSendMessage_accepted (w : World) (m : ChatInstance) :
  chat w = Some m ->
  truthy (trim (inputMessage (hooks m))) || truthyOpt (capturedImage (hooks m)) = true ->
  exec (handleSendMessage (self m) (hooks m)) w
  = withTimers (timers w ++ [{| due := clock w + 1000; callback := ReplyTo (self m) |}])
      (withChat (Some (withHooks (afterSend (hooks m)) m)) w).
Proof.
  intros Hm Hg. unfold handleSendMessage. rewrite Hg.
  mounted w m Hm. run_handler. reflexivity.
Qed.

Lemma handleSendMessage_refused (w : World) (i : nat) (r : ChatState) :
  truthy (trim (inputMessage r)) || truthyOpt (capturedImage r) = false ->
  handleSendMessage i r w = (tt, w).
Proof.
  intros Hg. unfold handleSendMessage. rewrite Hg. reflexivity.
Qed.

(** C2, as amended: when the trimmed text is non-empty or the staged image is
    a non-empty reference, the send appends exactly one user message at the
    tail, carrying the typed text and the staged image, clears the text
    input and the staged image, and arms exactly one reply timer, 1000 ms
    ahead; nothing else changes. *)
Theorem send_appends_clears_schedules (w : World) (m : ChatInstance) :
  chat w = Some m ->
  truthy (trim (inputMessage (hooks m))) || truthyOpt (capturedImage (hooks m)) = true ->
  let w' := exec (handleSendMessage (self m) (hooks m)) w in
  w' = withTimers (timers w ++ [{| due := clock w + 1000; callback := ReplyTo (self m) |}])
         (withChat (Some (withHooks (afterSend (hooks m)) m)) w)
  /\ snapshot w' = snapshot w
       ++ [{| text := inputMessage (hooks m); sender := user;
              image := capturedImage (hooks m) |}]
  /\ peek w' = None
  /\ length (timers w') = S (length (timers w)).
Proof.
  intros Hm Hg w'. subst w'. rewrite (handleSendMessage_accepted w m Hm Hg).
  repeat split.
  - unfold snapshot. simpl. rewrite Hm. reflexivity.
  - simpl. rewrite length_app. simpl. lia.
Qed.

Lemma send_appends_clears_schedules_witness :
  chat typedHi = Some (mounted_in typedHi)
  /\ snapshot (exec (handleSendMessage 0 (hooks (mounted_in typedHi))) typedHi)
     = [{| text := hi; sender := user; image := None |}].
Proof.
  split; [reflexivity|].
  exact (proj1 (proj2
    (send_appends_clears_schedules typedHi (mounted_in typedHi) eq_refl eq_refl))).
Defined.

(** C2 as stated fails: a text that is not empty (one space) with no staged
    image is not sent: no message is appended and no reply is scheduled. *)
Lemma send_blank_text_counterexample :
  inputMessage (hooks (mounted_in typedBlank)) <> []
  /\ chat typedBlank = Some (mounted_in typedBlank)
  /\ exec (handleSendMessage 0 (hooks (mounted_in typedBlank))) typedBlank = typedBlank
  /\ step ClickSend typedBlank = typedBlank
  /\ snapshot (step ClickSend typedBlank) = []
  /\ timers (step ClickSend typedBlank) = [].
Proof.
  repeat split; try reflexivity. discriminate.
Qed.

(** C3: with an empty text and no staged image the send is refused: the
    whole world, and so the timeline, the text input, the staged image and
    the timer queue, is as before. *)
Theorem send_empty_refused (w : World) (i : nat) (r : ChatState) :
  inputMessage r = [] ->
  capturedImage r = None ->
  handleSendMessage i r w = (tt, w)
  /\ length (snapshot (exec (handleSendMessage i r) w)) = length (snapshot w)
  /\ timers (exec (handleSendMessage i r) w) = timers w
  /\ chat (exec (handleSendMessage i r) w) = chat w.
Proof.
  intros Ht Hi.
  assert (H : handleSendMessage i r w = (tt, w)).
  { apply handleSendMessage_refused. rewrite Ht, Hi. reflexivity. }
  unfold exec. rewrite H. auto.
Qed.

Lemma send_empty_refused_witness :
  handleSendMessage 0 (hooks (mounted_in freshChat)) freshChat = (tt, freshChat).
Proof.
  exact (proj1 (send_empty_refused freshChat 0 (hooks (mounted_in freshChat))
                  eq_refl eq_refl)).
Defined.

(** C10: a text made of white space only, with no staged image, is refused
    (no message, no reply timer: the test is on the trimmed text); and a
    send that is accepted stores the text as typed, not trimmed. *)
Theorem send_tests_trimmed_stores_untrimmed (w : World) (m : ChatInstance) :
  chat w = Some m ->
  let r := hooks m in
  let w' := exec (handleSendMessage (self m) r) w in
  (forallb isWhiteSpace (inputMessage r) = true -> capturedImage r = None ->
     w' = w)
  /\ (snapshot w' <> snapshot w ->
      exists msg, snapshot w' = snapshot w ++ [msg]
                  /\ text msg = inputMessage r /\ sender msg = user).
Proof.
  intros Hm r w'. subst r w'. split.
  - intros Hb Hc. unfold exec. rewrite handleSendMessage_refused; [reflexivity|].
    rewrite (trim_blank _ Hb), Hc. reflexivity.
  - intros Hne.
    destruct (truthy (trim (inputMessage (hooks m)))
              || truthyOpt (capturedImage (hooks m))) eqn:Hg.
    + exists (newMessage (hooks m)).
      rewrite (handleSendMessage_accepted w m Hm Hg).
      unfold snapshot. simpl. rewrite Hm. auto.
    + exfalso. apply Hne. unfold exec.
      rewrite (handleSendMessage_refused w _ _ Hg). reflexivity.
Qed.

Lemma send_tests_trimmed_stores_untrimmed_witness :
  chat typedBlank = Some (mounted_in typedBlank)
  /\ exec (handleSendMessage 0 (hooks (mounted_in typedBlank))) typedBlank = typedBlank.
Proof.
  split; [reflexivity|].
  exact (proj1 (send_tests_trimmed_stores_untrimmed typedBlank (mounted_in typedBlank)
                  eq_refl) eq_refl eq_refl).
Defined.

(** ** The stylist's reply *)

Lemma runCallback_mounted (w : World) (m : ChatInstance) :
  chat w = Some m ->
  exec (runCallback (ReplyTo (self m))) w
  = withChat (Some (withHooks
      {| messages := messages (hooks m) ++ [reply];
         inputMessage := inputMessage (hooks m);
         showImageUpload := showImageUpload (hooks m);
         capturedImage := capturedImage (hooks m);
         videoRef := videoRef (hooks m); canvasRef := canvasRef (hooks m) |} m)) w.
Proof.
  intros Hm. mounted w m Hm. unfold runCallback. run_handler. reflexivity.
Qed.

(** C8: delivering the reply to the mounted chat always appends, at the
    tail, one message whose sender is the stylist and whose text is the
    fixed placeholder; the placeholder is not empty, trimmed or not. *)
Theorem reply_appended_at_tail (w : World) (m : ChatInstance) :
  chat w = Some m ->
  let w' := exec (runCallback (ReplyTo (self m))) w in
  snapshot w' = snapshot w ++ [reply]
  /\ sender reply = stylist
  /\ text reply = placeholder
  /\ truthy placeholder = true
  /\ truthy (trim placeholder) = true
  /\ (forall prev, appendReply prev = prev ++ [reply]).
Proof.
  intros Hm w'. subst w'. rewrite (runCallback_mounted w m Hm).
  unfold snapshot. simpl. rewrite Hm. repeat split.
Qed.

Lemma reply_appended_at_tail_witness :
  chat sentHi = Some (mounted_in sentHi)
  /\ snapshot (exec (runCallback (ReplyTo 0)) sentHi)
     = [{| text := hi; sender := user; image := None |}; reply].
Proof.
  split; [reflexivity|].
  exact (proj1 (reply_appended_at_tail sentHi (mounted_in sentHi) eq_refl)).
Defined.

(** ** The camera *)

Lemma active_stopAll (s : MediaStream) : active (stopAll s) = false.
Proof. induction s as [|t s IH]; simpl; [reflexivity | exact IH]. Qed.

Lemma stopCamera_mounted (w : World) (m : ChatInstance) :
  chat w = Some m ->
  exec (stopCamera (self m)) w
  = match boundStream w with
    | Some sid => withStreams (alter stopAll sid (streams w)) w
    | None => w
    end.
Proof.
  intros Hm. unfold boundStream. rewrite Hm.
  mounted w m Hm. unfold stopCamera. run_handler.
  destruct vid as [[[sid|]]|]; reflexivity.
Qed.

Lemma stopCamera_keeps_chat (w : World) (i : nat) :
  chat (exec (stopCamera i) w) = chat w.
Proof.
  unfold stopCamera, exec, bind, videoRefCurrent, stopTracks, ret.
  destruct (chat w) as [m|] eqn:E; simpl; [|exact E].
  destruct (Nat.eqb (self m) i); simpl; [|exact E].
  destruct (videoRef (hooks m)) as [[[sid|]]|]; simpl; exact E.
Qed.

Lemma stopCamera_unmounted (w : World) (i : nat) :
  (forall m, chat w = Some m -> self m <> i) ->
  stopCamera i w = (tt, w).
Proof.
  intros H. unfold stopCamera, bind, videoRefCurrent.
  destruct (chat w) as [m|] eqn:E; [|reflexivity].
  destruct (Nat.eqb_spec (self m) i) as [e|]; [|reflexivity].
  exfalso. exact (H m eq_refl e).
Qed.

Lemma cameraActive_after_stop (w : World) (sid : nat) :
  boundStream w = Some sid ->
  cameraActive (withStreams (alter stopAll sid (streams w)) w) = false.
Proof.
  intros Hb. unfold cameraActive.
  replace (boundStream (withStreams (alter stopAll sid (streams w)) w))
    with (boundStream w) by reflexivity.
  rewrite Hb. simpl. rewrite list_lookup_alter_eq.
  destruct (streams w !! sid); simpl; [apply active_stopAll | reflexivity].
Qed.

(** C9, as amended: with no stream bound [stopCamera] changes nothing; with
    a stream bound it stops every track of that stream and of no other, and
    the stream stays bound to the preview ([srcObject] is not cleared). *)
Theorem stopCamera_stops_tracks_keeps_binding (w : World) (m : ChatInstance) :
  chat w = Some m ->
  let w' := exec (stopCamera (self m)) w in
  match boundStream w with
  | None => w' = w
  | Some sid =>
      w' = withStreams (alter stopAll sid (streams w)) w
      /\ (forall s, streams w !! sid = Some s ->
            streams w' !! sid = Some (stopAll s) /\ active (stopAll s) = false)
      /\ (forall j, j <> sid -> streams w' !! j = streams w !! j)
      /\ cameraActive w' = false
      /\ boundStream w' = Some sid
  end.
Proof.
  intros Hm w'. subst w'. rewrite (stopCamera_mounted w m Hm).
  destruct (boundStream w) as [sid|] eqn:Hb; [|reflexivity].
  split; [reflexivity|]. split; [|split; [|split]].
  - intros s Hs. simpl. rewrite list_lookup_alter_eq, Hs.
    split; [reflexivity | apply active_stopAll].
  - intros j Hj. simpl. apply list_lookup_alter_ne. congruence.
  - apply cameraActive_after_stop. exact Hb.
  - exact Hb.
Qed.

Lemma stopCamera_stops_tracks_keeps_binding_witness :
  chat cameraOn = Some (mounted_in cameraOn)
  /\ streams (exec (stopCamera 0) cameraOn) = [[ended]]
  /\ boundStream (exec (stopCamera 0) cameraOn) = Some 0%nat.
Proof.
  split; [reflexivity|].
  pose proof (stopCamera_stops_tracks_keeps_binding cameraOn (mounted_in cameraOn)
                eq_refl) as H.
  change (boundStream cameraOn) with (Some 0%nat) in H.
  destruct H as (H1 & _ & _ & _ & H5).
  split; [exact (f_equal streams H1) | exact H5].
Defined.

(** C9 as stated fails: after [stopCamera] on a bound stream the stream,
    its track now ended, is still bound to the preview. *)
Lemma stopCamera_unbinds_counterexample :
  boundStream cameraOn = Some 0%nat
  /\ streams (exec (stopCamera 0) cameraOn) = [[ended]]
  /\ boundStream (exec (stopCamera 0) cameraOn) = Some 0%nat
  /\ boundStream (exec (stopCamera 0) cameraOn) <> None.
Proof. repeat split; try reflexivity. discriminate. Qed.

Lemma captureImage_mounted (w : World) (m : ChatInstance) v c url :
  chat w = Some m ->
  videoRef (hooks m) = Some v ->
  canvasRef (hooks m) = Some c ->
  exec (captureImage (self m) url) w
  = exec (stopCamera (self m))
      (withChat (Some (withHooks
         {| messages := messages (hooks m); inputMessage := inputMessage (hooks m);
            showImageUpload := showImageUpload (hooks m);
            capturedImage := Some url;
            videoRef := videoRef (hooks m); canvasRef := canvasRef (hooks m) |} m)) w).
Proof.
  intros Hm Hv Hc. mounted w m Hm. subst vid can.
  unfold captureImage, stopCamera. run_handler. reflexivity.
Qed.

Lemma captureImage_no_elements (w : World) (m : ChatInstance) url :
  chat w = Some m ->
  videoRef (hooks m) = None \/ canvasRef (hooks m) = None ->
  captureImage (self m) url w = (tt, w).
Proof.
  intros Hm H. mounted w m Hm. unfold captureImage. run_handler.
  destruct H as [-> | ->]; [destruct can|]; reflexivity.
Qed.

(** C7, as amended: after a capture that goes through, the staging area
    holds exactly the captured image, and every track of the stream bound to
    the preview at that moment is stopped; the binding is as before, and a
    stream that is not bound to the preview is left as it was, live if it
    was live. *)
Theorem capture_stages_image_and_stops_bound_stream
    (w : World) (m : ChatInstance) (v : HTMLVideoElement) (c : HTMLCanvasElement)
    (url : JsString) :
  chat w = Some m ->
  videoRef (hooks m) = Some v ->
  canvasRef (hooks m) = Some c ->
  let w' := exec (captureImage (self m) url) w in
  peek w' = Some url
  /\ cameraActive w' = false
  /\ boundStream w' = boundStream w
  /\ snapshot w' = snapshot w
  /\ streams w' = match boundStream w with
                  | Some b => alter stopAll b (streams w)
                  | None => streams w
                  end
  /\ (forall j, boundStream w <> Some j -> streams w' !! j = streams w !! j).
Proof.
  intros Hm Hv Hc w'. subst w'.
  rewrite (captureImage_mounted w m v c url Hm Hv Hc).
  set (w1 := withChat _ w).
  assert (Hm1 : chat w1 = Some (withHooks
     {| messages := messages (hooks m); inputMessage := inputMessage (hooks m);
        showImageUpload := showImageUpload (hooks m); capturedImage := Some url;
        videoRef := videoRef (hooks m); canvasRef := canvasRef (hooks m) |} m))
    by reflexivity.
  assert (Hb1 : boundStream w1 = boundStream w).
  { unfold boundStream. rewrite Hm1, Hm. reflexivity. }
  assert (Hs1 : snapshot w1 = snapshot w).
  { unfold snapshot. rewrite Hm1, Hm. reflexivity. }
  assert (Hst : streams w1 = streams w) by reflexivity.
  pose proof (stopCamera_mounted w1 _ Hm1) as E. simpl self in E. rewrite E.
  rewrite <- Hb1, <- Hst.
  destruct (boundStream w1) as [sid|] eqn:Hb.
  - assert (Hk : boundStream (withStreams (alter stopAll sid (streams w1)) w1)
                 = boundStream w1) by reflexivity.
    split; [reflexivity|]. split; [apply cameraActive_after_stop; exact Hb|].
    split; [congruence|]. split; [exact Hs1|]. split; [reflexivity|].
    intros j Hj. simpl. apply list_lookup_alter_ne. congruence.
  - split; [reflexivity|].
    split; [unfold cameraActive; rewrite Hb; reflexivity|].
    split; [congruence|]. split; [exact Hs1|]. split; [reflexivity|].
    intros j _. reflexivity.
Qed.

Lemma capture_stages_image_and_stops_bound_stream_witness :
  chat cameraOn = Some (mounted_in cameraOn)
  /\ cameraActive cameraOn = true
  /\ peek (exec (captureImage 0 someDataUrl) cameraOn) = Some someDataUrl
  /\ cameraActive (exec (captureImage 0 someDataUrl) cameraOn) = false.
Proof.
  split; [reflexivity|]. split; [reflexivity|].
  destruct (capture_stages_image_and_stops_bound_stream cameraOn (mounted_in cameraOn)
              {| srcObject := Some 0%nat |} {| width := 300; height := 150 |}
              someDataUrl eq_refl eq_refl eq_refl) as (H1 & H2 & _).
  split; [exact H1 | exact H2].
Defined.

(** C7 as stated fails: the camera was started, the panel closed and opened
    again; the capture goes through and stages the image, and the camera
    stream, bound to nothing any more, is still live. *)
Lemma capture_leaves_camera_live_counterexample :
  chat reopened = Some (mounted_in reopened)
  /\ showImageUpload (hooks (mounted_in reopened)) = true
  /\ streams reopened = [[live]]
  /\ boundStream reopened = None
  /\ peek (step (ClickCapture someDataUrl) reopened) = Some someDataUrl
  /\ streams (step (ClickCapture someDataUrl) reopened) = [[live]]
  /\ liveStreams (step (ClickCapture someDataUrl) reopened) = 1%nat.
Proof. repeat (split; [vm_compute; reflexivity|]). vm_compute. reflexivity. Qed.

(** C5, as amended: [captureImage] is guarded by the presence of the
    [<video>] and [<canvas>] elements, not by a bound stream.  With both
    elements mounted it stages the encoded canvas whether or not a stream is
    bound (with none bound, that is its only effect); with an element
    missing it does nothing.  It never fails. *)
Theorem capture_guarded_by_elements (w : World) (m : ChatInstance) (url : JsString) :
  chat w = Some m ->
  let w' := exec (captureImage (self m) url) w in
  match videoRef (hooks m), canvasRef (hooks m) with
  | Some _, Some _ =>
      peek w' = Some url
      /\ (boundStream w = None ->
          w' = withChat (Some (withHooks (staged (Some url) (hooks m)) m)) w)
  | _, _ => w' = w
  end.
Proof.
  intros Hm w'. subst w'.
  destruct (videoRef (hooks m)) as [v|] eqn:Hv.
  - destruct (canvasRef (hooks m)) as [c|] eqn:Hc.
    + split.
      * rewrite (captureImage_mounted w m v c url Hm Hv Hc).
        unfold peek. rewrite stopCamera_keeps_chat. reflexivity.
      * intros Hb. rewrite (captureImage_mounted w m v c url Hm Hv Hc).
        set (w1 := withChat _ w).
        assert (Hm1 : chat w1 = Some (withHooks (staged (Some url) (hooks m)) m))
          by reflexivity.
        pose proof (stopCamera_mounted w1 _ Hm1) as E. simpl self in E. rewrite E.
        assert (Hb1 : boundStream w1 = None).
        { rewrite <- Hb. unfold boundStream. rewrite Hm1, Hm. reflexivity. }
        rewrite Hb1. reflexivity.
    + unfold exec. rewrite (captureImage_no_elements w m url Hm); auto.
  - unfold exec. rewrite (captureImage_no_elements w m url Hm); auto.
Qed.

Lemma capture_guarded_by_elements_witness :
  chat panelOpen = Some (mounted_in panelOpen)
  /\ peek (exec (captureImage 0 someDataUrl) panelOpen) = Some someDataUrl.
Proof.
  split; [reflexivity|].
  exact (proj1 (capture_guarded_by_elements panelOpen (mounted_in panelOpen)
                  someDataUrl eq_refl)).
Defined.

(** C5 as stated fails: with the image panel open and no stream bound (no
    stream was ever opened), a capture goes through and stages an image. *)
Lemma capture_without_stream_counterexample :
  boundStream panelOpen = None
  /\ streams panelOpen = []
  /\ peek panelOpen = None
  /\ peek (step (ClickCapture someDataUrl) panelOpen) = Some someDataUrl
  /\ console (step (ClickCapture someDataUrl) panelOpen) = [].
Proof. repeat split. Qed.

Lemma liveStreams_newStream (w : World) :
  liveStreams (withStreams (streams w ++ [[live]]) w) = S (liveStreams w).
Proof.
  unfold liveStreams. simpl. rewrite List.filter_app, length_app. simpl. lia.
Qed.

(** C6, as amended: [startCamera] neither stops a stream that is already
    bound nor rejects.  When the camera is granted, one more live stream is
    opened and bound to the preview in place of what was bound; every stream
    opened earlier is left as it was, so one more live stream is held. *)
Theorem startCamera_opens_one_more_stream
    (w : World) (m : ChatInstance) (v : HTMLVideoElement) :
  chat w = Some m ->
  videoRef (hooks m) = Some v ->
  let w' := exec (startCamera_resume (self m) Granted) w in
  streams w' = streams w ++ [[live]]
  /\ liveStreams w' = S (liveStreams w)
  /\ boundStream w' = Some (length (streams w))
  /\ console w' = console w.
Proof.
  intros Hm Hv w'. subst w'.
  assert (E : exec (startCamera_resume (self m) Granted) w
              = withChat (Some (withHooks
                  {| messages := messages (hooks m);
                     inputMessage := inputMessage (hooks m);
                     showImageUpload := showImageUpload (hooks m);
                     capturedImage := capturedImage (hooks m);
                     videoRef := Some {| srcObject := Some (length (streams w)) |};
                     canvasRef := canvasRef (hooks m) |} m))
                  (withStreams (streams w ++ [[live]]) w)).
  { mounted w m Hm. subst vid. unfold startCamera_resume. run_handler. reflexivity. }
  rewrite E. split; [reflexivity|]. split; [|split; reflexivity].
  exact (liveStreams_newStream w).
Qed.

Lemma startCamera_opens_one_more_stream_witness :
  chat cameraOn = Some (mounted_in cameraOn)
  /\ liveStreams cameraOn = 1%nat
  /\ liveStreams (exec (startCamera_resume 0 Granted) cameraOn) = 2%nat.
Proof.
  split; [reflexivity|]. split; [reflexivity|].
  exact (proj1 (proj2
    (startCamera_opens_one_more_stream cameraOn (mounted_in cameraOn)
       {| srcObject := Some 0%nat |} eq_refl eq_refl))).
Defined.

(** C6 as stated fails: starting the camera twice in one chat leaves two
    live streams held, the first no longer bound to anything; nothing was
    stopped and nothing was rejected. *)
Lemma two_live_streams_counterexample :
  cameraTwice
  = run [SelectStylist hanako; OpenImageUpload; ClickStartCamera;
         MediaSettles Granted; ClickStartCamera; MediaSettles Granted] initialWorld
  /\ streams cameraTwice = [[live]; [live]]
  /\ liveStreams cameraTwice = 2%nat
  /\ boundStream cameraTwice = Some 1%nat
  /\ console cameraTwice = [].
Proof. repeat (split; [vm_compute; reflexivity|]). vm_compute. reflexivity. Qed.

(** ** The timeline *)

Lemma appendMessages_nil (m : ChatInstance) : appendMessages [] m = m.
Proof.
  destruct m as [i p [ms inp siu cap vid can]].
  unfold appendMessages, withHooks. simpl. rewrite app_nil_r. reflexivity.
Qed.

Lemma withChat_same (w : World) (m : ChatInstance) :
  chat w = Some m -> withChat (Some m) w = w.
Proof. intros H. destruct w. simpl in H. subst. reflexivity. Qed.

Lemma fire_mounted (w : World) (m : ChatInstance) (tm : Timer) :
  chat w = Some m ->
  fire w tm = withChat (Some (appendMessages (repliesFor (self m) [tm]) m)) w.
Proof.
  intros Hm. destruct tm as [d [i]]. unfold fire, repliesFor.
  cbn [callback targetOf List.filter].
  destruct (Nat.eqb_spec (self m) i) as [<-|Hne].
  - rewrite (runCallback_mounted w m Hm). reflexivity.
  - cbn [map]. rewrite appendMessages_nil, (withChat_same w m Hm).
    unfold exec, runCallback, setMessages. rewrite updateHooks_other; [reflexivity|].
    intros m' Hm'. congruence.
Qed.

Lemma fire_unmounted (w : World) (tm : Timer) :
  chat w = None -> fire w tm = w.
Proof.
  intros Hm. unfold fire, exec. destruct tm as [d [i]]. simpl.
  unfold setMessages. rewrite updateHooks_other; [reflexivity|].
  intros m' Hm'. congruence.
Qed.

Lemma fold_fire_mounted (ts : list Timer) (w : World) (m : ChatInstance) :
  chat w = Some m ->
  fold_left fire ts w = withChat (Some (appendMessages (repliesFor (self m) ts) m)) w.
Proof.
  revert w m. induction ts as [|tm ts IH]; intros w m Hm.
  - mounted w m Hm. unfold appendMessages, withHooks, withChat, repliesFor. simpl.
    rewrite app_nil_r. reflexivity.
  - simpl. rewrite (fire_mounted w m tm Hm).
    rewrite (IH (withChat (Some (appendMessages (repliesFor (self m) [tm]) m)) w)
               (appendMessages (repliesFor (self m) [tm]) m) eq_refl).
    mounted w m Hm. destruct tm as [d [i]].
    unfold appendMessages, withHooks, withChat, repliesFor. simpl.
    destruct (Nat.eqb slf i); simpl; rewrite <- ?app_assoc, ?app_nil_r; reflexivity.
Qed.

Lemma fold_fire_unmounted (ts : list Timer) (w : World) :
  chat w = None -> fold_left fire ts w = w.
Proof.
  revert w. induction ts as [|tm ts IH]; intros w Hm; simpl; [reflexivity|].
  rewrite (fire_unmounted w tm Hm). apply IH. exact Hm.
Qed.

Lemma filter_filter_andb {A} (p q : A -> bool) (l : list A) :
  List.filter q (List.filter p l) = List.filter (fun a => p a && q a) l.
Proof.
  induction l as [|a l IH]; simpl; [reflexivity|].
  destruct (p a); simpl; [destruct (q a); simpl; congruence | exact IH].
Qed.

Lemma advance_mounted (dt : N) (w : World) (m : ChatInstance) :
  chat w = Some m ->
  advance dt w
  = withChat (Some (appendMessages (appended (Advance dt) w) m))
      (withTimers (List.filter (fun tm => negb (isDue (clock w + dt) tm)) (timers w))
         (withClock (clock w + dt) w)).
Proof.
  intros Hm. unfold advance.
  rewrite (fold_fire_mounted _ _ m) by exact Hm.
  unfold appended, repliesFor. rewrite Hm, filter_filter_andb. reflexivity.
Qed.

Lemma advance_unmounted (dt : N) (w : World) :
  chat w = None ->
  advance dt w
  = withTimers (List.filter (fun tm => negb (isDue (clock w + dt) tm)) (timers w))
      (withClock (clock w + dt) w).
Proof. intros Hm. unfold advance. apply fold_fire_unmounted. exact Hm. Qed.

Lemma chat_render (w : World) :
  chat (render w) = (fun m => withHooks (reconcile (hooks m)) m) <$> chat w.
Proof. reflexivity. Qed.

Ltac settle :=
  eexists; split; [reflexivity|]; cbn; rewrite ?app_nil_r; auto.

(** One event other than leaving the chat, before the render that follows
    it: the mounted instance stays, and its messages grow at the tail by
    what the event appends. *)
Lemma handle_appends (e : Event) (w : World) (m : ChatInstance) :
  chat w = Some m ->
  e <> Back ->
  exists m', chat (handle e w) = Some m'
             /\ self m' = self m
             /\ messages (hooks m') = messages (hooks m) ++ appended e w.
Proof.
  intros Hm He.
  destruct e; try congruence.
  12: { cbn [handle]. rewrite (advance_mounted dt w m Hm).
        eexists. split; [reflexivity|]. split; reflexivity. }
  all: unfold handle, onChat, appended; rewrite Hm; mounted w m Hm.
  - settle.
  - destruct siu; run_handler; settle.
  - destruct siu; cbn [negb andb]; [run_handler; settle|].
    unfold handleSendMessage.
    cbn [messages inputMessage showImageUpload capturedImage videoRef canvasRef].
    destruct (truthy (trim inp) || truthyOpt cap); run_handler; settle.
  - run_handler; settle.
  - destruct siu; run_handler; settle.
  - destruct siu; unfold startCamera; run_handler; settle.
  - destruct pm as [|i rest]; [settle|].
    destruct o; unfold startCamera_resume; [|run_handler; settle].
    destruct (Nat.eqb slf i) eqn:E; [destruct vid|];
      do 4 (run_handler_once; rewrite ?E); settle.
  - destruct siu; [|run_handler; settle].
    unfold captureImage, stopCamera. run_handler.
    destruct can; [|settle]. destruct vid as [[[sid|]]|]; run_handler; settle.
  - destruct siu; [|run_handler; settle].
    destruct file; unfold handleFileUpload; run_handler; settle.
  - destruct pr as [|[i url] rest]; [settle|].
    destruct ok; [|settle]. unfold readerOnload.
    destruct (Nat.eqb slf i) eqn:E; do 4 (run_handler_once; rewrite ?E); settle.
  - destruct (siu && truthyOpt cap); run_handler; settle.
Qed.

Lemma step_appends (e : Event) (w : World) (m : ChatInstance) :
  chat w = Some m ->
  e <> Back ->
  exists m', chat (step e w) = Some m'
             /\ self m' = self m
             /\ messages (hooks m') = messages (hooks m) ++ appended e w.
Proof.
  intros Hm He.
  destruct (handle_appends e w m Hm He) as (m' & Hc & Hs & Hms).
  exists (withHooks (reconcile (hooks m')) m'). unfold step.
  rewrite chat_render, Hc. auto.
Qed.

Lemma snapshot_mounted (w : World) (m : ChatInstance) :
  chat w = Some m -> snapshot w = messages (hooks m).
Proof. intros H. unfold snapshot. rewrite H. reflexivity. Qed.

(** When every click reaches the handlers of a render of the current state
    (the delivery of [step]): along any sequence of events of a chat (any
    events but leaving it), the timeline is what it was followed by the
    messages appended, in the order of the events that appended them.  A
    click that comes before the re-render is another matter: see the part
    on clicks before the re-render. *)
Lemma timeline_append_only (es : list Event) (w : World) (m : ChatInstance) :
  chat w = Some m ->
  ~ In Back es ->
  (exists m', chat (run es w) = Some m' /\ self m' = self m)
  /\ snapshot (run es w) = snapshot w ++ appendLog es w
  /\ (snapshot w = [] -> snapshot (run es w) = appendLog es w).
Proof.
  revert w m. induction es as [|e es IH]; intros w m Hm Hb.
  - simpl. rewrite app_nil_r. split; [eauto|]. split; auto.
  - assert (He : e <> Back) by (intros ->; apply Hb; left; reflexivity).
    assert (Hb' : ~ In Back es) by (intros H; apply Hb; right; exact H).
    destruct (step_appends e w m Hm He) as (m1 & Hc1 & Hs1 & Hms1).
    destruct (IH (step e w) m1 Hc1 Hb') as ((m2 & Hc2 & Hs2) & Hsnap & _).
    assert (Hall : snapshot (run (e :: es) w) = snapshot w ++ appendLog (e :: es) w).
    { change (run (e :: es) w) with (run es (step e w)).
      rewrite Hsnap, (snapshot_mounted _ _ Hc1), Hms1, (snapshot_mounted _ _ Hm).
      simpl. rewrite app_assoc. reflexivity. }
    split; [|split].
    + exists m2. split; [exact Hc2 | congruence].
    + exact Hall.
    + intros Hnil. rewrite Hall, Hnil. reflexivity.
Qed.

(** ** Leaving the chat *)

Lemma wellFormed_initial : wellFormed initialWorld.
Proof. split; [constructor | exact I]. Qed.

Lemma Forall_filter_keep {A} (P : A -> Prop) (p : A -> bool) (l : list A) :
  Forall P l -> Forall P (List.filter p l).
Proof.
  induction 1 as [|a l Ha Hl IH]; simpl; [constructor|].
  destruct (p a); [constructor; assumption | assumption].
Qed.

Lemma wellFormed_handle (e : Event) (w : World) :
  wellFormed w -> wellFormed (handle e w).
Proof.
  intros [Ht Hc]. destruct (chat w) as [m|] eqn:Hm.
  - destruct e.
    13: { cbn [handle]. rewrite (advance_mounted dt w m Hm). split.
          - apply Forall_filter_keep. exact Ht.
          - exact Hc. }
    all: unfold wellFormed, handle, onChat; rewrite ?Hm; mounted w m Hm;
         cbn [timers nextInstance chat self] in Ht, Hc.
    + split; assumption.
    + split; [assumption | exact I].
    + destruct siu; run_handler; split; assumption.
    + destruct siu; [run_handler; split; assumption|].
      unfold handleSendMessage.
      cbn [messages inputMessage showImageUpload capturedImage videoRef canvasRef].
      destruct (truthy (trim inp) || truthyOpt cap); run_handler;
        (split; [|assumption]); [|assumption].
      apply Forall_app. split; [assumption|]. repeat constructor. exact Hc.
    + run_handler; split; assumption.
    + destruct siu; run_handler; split; assumption.
    + destruct siu; unfold startCamera; run_handler; split; assumption.
    + destruct pm as [|i rest]; [split; assumption|].
      destruct o; unfold startCamera_resume; [|run_handler; split; assumption].
      destruct (Nat.eqb slf i) eqn:E; [destruct vid|];
        do 4 (run_handler_once; rewrite ?E); split; assumption.
    + destruct siu; [|run_handler; split; assumption].
      unfold captureImage, stopCamera. run_handler.
      destruct can; [|split; assumption].
      destruct vid as [[[sid|]]|]; run_handler; split; assumption.
    + destruct siu; [|run_handler; split; assumption].
      destruct file; unfold handleFileUpload; run_handler; split; assumption.
    + destruct pr as [|[i url] rest]; [split; assumption|].
      destruct ok; [|split; assumption]. unfold readerOnload.
      destruct (Nat.eqb slf i) eqn:E; do 4 (run_handler_once; rewrite ?E);
        split; assumption.
    + destruct (siu && truthyOpt cap); run_handler; split; assumption.
  - destruct e.
    13: { cbn [handle]. rewrite (advance_unmounted dt w Hm). split.
          - apply Forall_filter_keep. exact Ht.
          - simpl. rewrite Hm. exact I. }
    all: unfold wellFormed, handle, onChat; rewrite ?Hm;
         destruct w as [clk tms sts pm pr con nxt ch]; simpl in Hm; subst ch;
         cbn [timers nextInstance chat self] in Ht.
    all: try (split; [assumption | exact I]).
    + unfold mount. cbn. split; [|lia].
      eapply List.Forall_impl; [|exact Ht]. cbn. intros; lia.
    + destruct pm as [|i rest]; [split; [assumption | exact I]|].
      destruct o; unfold startCamera_resume; run_handler;
        split; [assumption | exact I | assumption | exact I].
    + destruct pr as [|[i url] rest]; [split; [assumption | exact I]|].
      destruct ok; [|split; [assumption | exact I]].
      unfold readerOnload. run_handler. split; [assumption | exact I].
Qed.

Lemma wellFormed_step (e : Event) (w : World) :
  wellFormed w -> wellFormed (step e w).
Proof.
  intros H. apply (wellFormed_handle e) in H. destruct H as [Ht Hc].
  unfold step. split; [exact Ht|].
  rewrite chat_render. destruct (chat (handle e w)); [exact Hc | exact I].
Qed.

Lemma reachable_wellFormed (w : World) : reachable w -> wellFormed w.
Proof.
  induction 1 as [|e w _ IH]; [apply wellFormed_initial | apply wellFormed_step, IH].
Qed.

Lemma reachable_run (es : list Event) (w : World) :
  reachable w -> reachable (run es w).
Proof.
  revert w. induction es as [|e es IH]; intros w H; [exact H|].
  apply (IH (step e w)). constructor. exact H.
Qed.

(** A timer of an earlier instance adds no reply to a later one. *)
Lemma repliesFor_later (i : nat) (ts : list Timer) :
  Forall (fun tm => (targetOf (callback tm) < i)%nat) ts -> repliesFor i ts = [].
Proof.
  unfold repliesFor. induction 1 as [|tm ts Htm _ IH]; [reflexivity|].
  simpl. destruct (Nat.eqb_spec i (targetOf (callback tm))); [lia | exact IH].
Qed.

Lemma appended_advance_later (dt : N) (w : World) (m : ChatInstance) :
  chat w = Some m ->
  Forall (fun tm => (targetOf (callback tm) < self m)%nat) (timers w) ->
  appended (Advance dt) w = [].
Proof.
  intros Hm H. unfold appended. rewrite Hm.
  induction H as [|tm ts Htm _ IH]; [reflexivity|].
  simpl. destruct (Nat.eqb_spec (self m) (targetOf (callback tm))); [lia|].
  rewrite andb_false_r. exact IH.
Qed.

Lemma step_Back (w : World) :
  step Back w = withChat None w.
Proof.
  unfold step, handle, unmount. destruct w as [clk tms sts pm pr con nxt [m|]];
    reflexivity.
Qed.

Lemma step_Advance_unmounted (dt : N) (w : World) :
  chat w = None ->
  step (Advance dt) w
  = withTimers (List.filter (fun tm => negb (isDue (clock w + dt) tm)) (timers w))
      (withClock (clock w + dt) w).
Proof.
  intros Hm. unfold step. cbn [handle]. rewrite (advance_unmounted dt w Hm).
  destruct w as [clk tms sts pm pr con nxt ch]. simpl in Hm. subst ch. reflexivity.
Qed.

(** C1, as amended: leaving the chat cancels nothing.  Every reply that was
    outstanding stays in the timer queue and leaves it only by firing when
    due; by then its chat is unmounted, so the update it makes is dropped:
    no message is appended after teardown, neither while no chat is mounted
    nor to the timeline of a chat opened next. *)
Theorem teardown_keeps_replies_scheduled (w : World) :
  reachable w ->
  let w1 := step Back w in
  timers w1 = timers w
  /\ chat w1 = None
  /\ (forall dt,
        chat (step (Advance dt) w1) = None
        /\ snapshot (step (Advance dt) w1) = []
        /\ timers (step (Advance dt) w1)
           = List.filter (fun tm => negb (isDue (clock w + dt) tm)) (timers w))
  /\ (forall s dt,
        timers (step (SelectStylist s) w1) = timers w
        /\ snapshot (step (Advance dt) (step (SelectStylist s) w1)) = []).
Proof.
  intros Hr w1. subst w1. rewrite step_Back.
  destruct (reachable_wellFormed w Hr) as [Ht _].
  split; [reflexivity|]. split; [reflexivity|]. split.
  - intros dt. rewrite (step_Advance_unmounted dt (withChat None w) eq_refl).
    repeat split.
  - intros s dt. split; [reflexivity|].
    set (w2 := step (SelectStylist s) (withChat None w)).
    assert (Hm2 : chat w2 = Some {| self := nextInstance w; props := s;
                                    hooks := initialChat |}) by reflexivity.
    assert (Hb : Advance dt <> Back) by discriminate.
    destruct (step_appends (Advance dt) w2 _ Hm2 Hb) as (m' & Hc & _ & Hms).
    rewrite (snapshot_mounted _ _ Hc), Hms.
    rewrite (appended_advance_later dt w2 _ Hm2); [reflexivity|].
    exact Ht.
Qed.

Lemma teardown_keeps_replies_scheduled_witness :
  reachable sentHi
  /\ timers (step Back sentHi) = [{| due := 1000; callback := ReplyTo 0 |}]
  /\ snapshot (step (Advance 1000) (step (SelectStylist hanako) (step Back sentHi))) = [].
Proof.
  assert (Hr : reachable sentHi).
  { unfold sentHi. apply reachable_run. apply reachable_init. }
  split; [exact Hr|].
  destruct (teardown_keeps_replies_scheduled sentHi Hr) as (H1 & _ & _ & H4).
  split.
  - exact H1.
  - exact (proj2 (H4 hanako 1000)).
Defined.

(** C1 as stated fails: a reply scheduled before leaving the chat is not
    cancelled by leaving: it is still in the timer queue after teardown,
    and at any time before it is due; it leaves the queue by firing. *)
Lemma teardown_cancels_replies_counterexample :
  timers sentHi = [{| due := 1000; callback := ReplyTo 0 |}]
  /\ chat (step Back sentHi) = None
  /\ timers (step Back sentHi) = [{| due := 1000; callback := ReplyTo 0 |}]
  /\ timers (step (Advance 999) (step Back sentHi))
     = [{| due := 1000; callback := ReplyTo 0 |}]
  /\ timers (step (Advance 1000) (step Back sentHi)) = [].
Proof. repeat (split; [vm_compute; reflexivity|]). vm_compute. reflexivity. Qed.

(** * Further properties *)

(** ** What an event does to the clock and the timers *)

Ltac break_goal :=
  match goal with
  | |- context [match ?x with _ => _ end] => is_var x; destruct x
  | |- context [srcObject ?h] => is_var h; destruct h
  | |- context [if ?b then _ else _] => destruct b eqn:?
  end.

Ltac open_step :=
  unfold step, render, handle, onChat, handleSendMessage, startCamera,
    startCamera_resume, captureImage, stopCamera, handleFileUpload,
    readerOnload, mount, unmount.

Ltac reduce :=
  repeat progress (run_handler_once; cbn [fmap option_fmap option_map app]).

Ltac crunch :=
  reduce; repeat (break_goal; reduce);
  try (exfalso;
       cbn [negb andb orb messages inputMessage showImageUpload capturedImage
            videoRef canvasRef srcObject] in *;
       congruence).

(** Case analysis on the world and the event; [Advance] is left to [adv]. *)
Ltac by_events w e adv :=
  destruct w as [clk tms sts pm pr con nxt [[slf prp [msgs inp siu cap vid can]]|]];
  destruct e as [s| |v| | | | |o|url|file|ok| |dt];
  [ | | | | | | | | | | | | adv | | | | | | | | | | | | | adv ].

Lemma step_Advance (dt : N) (w : World) : step (Advance dt) w = render (advance dt w).
Proof. reflexivity. Qed.

Lemma clock_step (e : Event) (w : World) : clock (step e w) = clockAfter e w.
Proof.
  by_events w e ltac:(rewrite step_Advance;
    first [ erewrite advance_mounted by reflexivity
          | rewrite advance_unmounted by reflexivity ]; reflexivity).
  all: open_step; crunch; reflexivity.
Qed.

Lemma timers_step (e : Event) (w : World) : timers (step e w) = timersAfter e w.
Proof.
  by_events w e ltac:(rewrite step_Advance;
    first [ erewrite advance_mounted by reflexivity
          | rewrite advance_unmounted by reflexivity ]; reflexivity).
  all: unfold timersAfter, appended, selfOf; open_step; crunch;
       cbn [map app negb andb]; rewrite ?app_nil_r; try reflexivity.
Qed.

Ltac rewrite_advance :=
  rewrite step_Advance;
  first [ erewrite advance_mounted by reflexivity
        | rewrite advance_unmounted by reflexivity ].

Ltac open_render :=
  unfold boundStream, peek, snapshot, appendMessages, reconcile, default;
  cbn [from_option id].

Lemma chat_step_unmounted (e : Event) (w : World) :
  chat w = None ->
  chat (step e w)
  = match e with
    | SelectStylist s =>
        Some {| self := nextInstance w; props := s; hooks := initialChat |}
    | _ => None
    end.
Proof.
  intros Hm. destruct w as [clk tms sts pm pr con nxt ch]. simpl in Hm. subst ch.
  destruct e as [s| |v| | | | |o|url|file|ok| |dt];
    try (rewrite_advance; reflexivity);
    open_step; crunch; reflexivity.
Qed.

(** ** Streams are stopped by a capture only *)

(** One event leaves the streams as they are, or opens one more, or stops
    the tracks of the stream bound to the preview; and the preview is then
    bound to nothing, to what it was bound to, or to the stream just
    opened. *)
Lemma streams_step (e : Event) (w : World) :
  (streams (step e w) = streams w
   \/ streams (step e w) = streams w ++ [[live]]
   \/ exists b, boundStream w = Some b
                /\ streams (step e w) = alter stopAll b (streams w))
  /\ (boundStream (step e w) = None
      \/ boundStream (step e w) = boundStream w
      \/ boundStream (step e w) = Some (length (streams w))).
Proof.
  by_events w e rewrite_advance.
  all: open_render; open_step; unfold reconcile, default; crunch;
       cbn [from_option id].
  all: split;
    [ first [ left; reflexivity | right; left; reflexivity
            | right; right; eexists; split; reflexivity ]
    | first [ left; reflexivity | right; left; reflexivity
            | right; right; reflexivity ] ].
Qed.

(** ** The timer queue *)

Lemma StronglySorted_filter {A} (R : A -> A -> Prop) (p : A -> bool) (l : list A) :
  StronglySorted R l -> StronglySorted R (List.filter p l).
Proof.
  induction 1 as [|a l Hl IH Ha]; simpl; [constructor|].
  destruct (p a); [|exact IH].
  constructor; [exact IH | apply Forall_filter_keep; exact Ha].
Qed.

Lemma StronglySorted_snoc {A} (R : A -> A -> Prop) (l l' : list A) :
  StronglySorted R l -> StronglySorted R l' ->
  Forall (fun a => Forall (R a) l') l ->
  StronglySorted R (l ++ l').
Proof.
  induction 1 as [|a l Hl IH Ha]; intros Hl' Hall; simpl; [exact Hl'|].
  inversion Hall as [|? ? Ha' Hall']; subst.
  constructor; [apply IH; assumption|].
  apply Forall_app. split; assumption.
Qed.

Lemma StronglySorted_same {A B} (R : A -> A -> Prop) (a : A) (l : list B) :
  R a a -> StronglySorted R (map (fun _ => a) l).
Proof.
  intros Ha. induction l as [|b l IH]; simpl; constructor; [exact IH|].
  clear IH. induction l; simpl; constructor; assumption.
Qed.

Lemma timersInOrder_step (e : Event) (w : World) :
  timersInOrder w -> timersInOrder (step e w).
Proof.
  intros [Hs Hb]. unfold timersInOrder.
  rewrite timers_step, clock_step.
  destruct e; cbn [timersAfter clockAfter]; try (split; assumption).
  - (* a send: the new timer is due last *)
    set (t := {| due := clock w + 1000; callback := ReplyTo (selfOf w) |}).
    split.
    + apply StronglySorted_snoc; [exact Hs | apply StronglySorted_same; simpl; lia |].
      eapply List.Forall_impl; [|exact Hb]. intros tm Htm.
      induction (appended ClickSend w) as [|x l IHl]; simpl;
        [constructor | constructor; [simpl in *; lia | exact IHl]].
    + apply Forall_app. split; [exact Hb|].
      induction (appended ClickSend w) as [|x l IHl]; simpl;
        [constructor | constructor; [simpl in *; lia | exact IHl]].
  - (* time passes: what stays is what is not yet due *)
    split; [apply StronglySorted_filter; exact Hs|].
    induction Hb as [|tm ts Htm _ IH]; simpl; [constructor|].
    unfold isDue at 1. destruct (N.leb_spec (due tm) (clock w + dt)); simpl.
    + apply IH. inversion Hs; assumption.
    + constructor; [lia|]. apply IH. inversion Hs; assumption.
Qed.

(** X3: in every world the application can reach, the timer queue is in the
    order of the due times, and every armed reply is due later than now and
    at most 1000 ms from now; so replies fire in the order of their sends,
    none early and none left behind. *)
Theorem timers_in_order (w : World) :
  reachable w -> timersInOrder w.
Proof.
  induction 1 as [|e w _ IH]; [|apply timersInOrder_step; exact IH].
  split; constructor.
Qed.

Lemma timers_in_order_witness :
  reachable (step (Advance 400) sentHi)
  /\ Forall (fun tm => 400 < due tm <= 1400) (timers (step (Advance 400) sentHi)).
Proof.
  assert (Hr : reachable (step (Advance 400) sentHi)).
  { constructor. unfold sentHi. apply reachable_run. apply reachable_init. }
  split; [exact Hr|].
  exact (proj2 (timers_in_order _ Hr)).
Defined.

Lemma Event_eq_Back (e : Event) : e = Back \/ e <> Back.
Proof. destruct e; first [left; reflexivity | right; discriminate]. Qed.

(** ** Replies and the messages they answer *)

Lemma unanswered_app (acc : nat) (l l' : list Message) :
  unanswered acc (l ++ l')
  = match unanswered acc l with
    | Some a => unanswered a l'
    | None => None
    end.
Proof.
  revert acc. induction l as [|msg l IH]; intros acc; simpl; [reflexivity|].
  destruct (isUser msg); [apply IH|]. destruct acc; [reflexivity | apply IH].
Qed.

Lemma unanswered_replies {A} (b : nat) (l : list A) :
  unanswered (length l + b) (map (fun _ => reply) l) = Some b.
Proof. induction l as [|a l IH]; simpl; [reflexivity | exact IH]. Qed.

Lemma unanswered_counts (l : list Message) (acc p : nat) :
  unanswered acc l = Some p -> (acc + fromUser l = fromStylist l + p)%nat.
Proof.
  unfold fromUser, fromStylist. revert acc.
  induction l as [|msg l IH]; intros acc; simpl.
  - intros [= <-]. lia.
  - destruct (isUser msg); simpl.
    + intros H. apply IH in H. lia.
    + destruct acc; [discriminate|]. intros H. apply IH in H. lia.
Qed.

(** The timers of instance [i] split into those that come due and those
    that stay. *)
Lemma pendingFor_split (i : nat) (t : N) (ts : list Timer) :
  pendingFor i ts
  = (length (List.filter (fun tm => isDue t tm && Nat.eqb i (targetOf (callback tm))) ts)
     + pendingFor i (List.filter (fun tm => negb (isDue t tm)) ts))%nat.
Proof.
  unfold pendingFor. induction ts as [|tm ts IH]; simpl; [reflexivity|].
  destruct (isDue t tm); simpl;
    destruct (Nat.eqb i (targetOf (callback tm))); simpl; lia.
Qed.

Lemma pendingFor_none (i : nat) (ts : list Timer) :
  Forall (fun tm => (targetOf (callback tm) < i)%nat) ts -> pendingFor i ts = 0%nat.
Proof.
  unfold pendingFor. induction 1 as [|tm ts Htm _ IH]; [reflexivity|].
  simpl. destruct (Nat.eqb_spec i (targetOf (callback tm))); [lia | exact IH].
Qed.

Lemma pendingFor_app (i : nat) (ts ts' : list Timer) :
  pendingFor i (ts ++ ts') = (pendingFor i ts + pendingFor i ts')%nat.
Proof. unfold pendingFor. rewrite List.filter_app, length_app. reflexivity. Qed.

(** ** What the timeline holds *)

Lemma wellFormedMessage_appended (e : Event) (w : World) :
  Forall wellFormedMessage (appended e w).
Proof.
  unfold appended. destruct (chat w) as [m|]; [|constructor].
  destruct e; try constructor.
  - destruct (negb (showImageUpload (hooks m))); simpl; [|constructor].
    destruct (truthy (trim (inputMessage (hooks m)))
              || truthyOpt (capturedImage (hooks m))) eqn:Hg; constructor;
      [exact Hg | constructor].
  - induction (List.filter _ (timers w)) as [|tm ts IH]; simpl; constructor;
      [reflexivity | exact IH].
Qed.

Lemma wellFormedMessage_step (e : Event) (w : World) :
  Forall wellFormedMessage (snapshot w) ->
  Forall wellFormedMessage (snapshot (step e w)).
Proof.
  intros H. destruct (chat w) as [m|] eqn:Hm.
  - destruct (Event_eq_Back e) as [->|He].
    { rewrite step_Back. constructor. }
    destruct (step_appends e w m Hm He) as (m' & Hc & _ & Hms).
    rewrite (snapshot_mounted _ _ Hc), Hms. apply Forall_app. split.
    + rewrite <- (snapshot_mounted _ _ Hm). exact H.
    + apply wellFormedMessage_appended.
  - unfold snapshot. rewrite (chat_step_unmounted e w Hm).
    destruct e; constructor.
Qed.

(** X5: every message a reachable timeline holds is either the fixed reply
    of the stylist (no image), or a user message that has a character other
    than white space or carries a non-empty image: no blank message is ever
    in a timeline. *)
Theorem timeline_holds_no_blank_message (w : World) (msg : Message) :
  reachable w ->
  In msg (snapshot w) ->
  match sender msg with
  | user => existsb (fun c => negb (isWhiteSpace c)) (text msg)
            || truthyOpt (image msg) = true
  | stylist => text msg = placeholder /\ image msg = None
  end.
Proof.
  intros Hr Hin.
  assert (Hall : Forall wellFormedMessage (snapshot w)).
  { clear Hin. induction Hr as [|e w _ IH]; [constructor|].
    apply wellFormedMessage_step. exact IH. }
  rewrite List.Forall_forall in Hall. specialize (Hall msg Hin).
  unfold wellFormedMessage in Hall. destruct (sender msg).
  - rewrite <- truthy_trim. exact Hall.
  - subst msg. split; reflexivity.
Qed.

Lemma timeline_holds_no_blank_message_witness :
  reachable sentHi
  /\ In {| text := hi; sender := user; image := None |} (snapshot sentHi)
  /\ existsb (fun c => negb (isWhiteSpace c)) hi || false = true.
Proof.
  assert (Hr : reachable sentHi).
  { unfold sentHi. apply reachable_run. apply reachable_init. }
  assert (Hin : In {| text := hi; sender := user; image := None |} (snapshot sentHi)).
  { left. vm_compute. reflexivity. }
  split; [exact Hr|]. split; [exact Hin|].
  exact (timeline_holds_no_blank_message sentHi _ Hr Hin).
Defined.

(** ** Streams nobody can stop *)

Lemma unbound_stream_step (e : Event) (w : World) (sid : nat) (s : MediaStream) :
  streams w !! sid = Some s ->
  boundStream w <> Some sid ->
  streams (step e w) !! sid = Some s /\ boundStream (step e w) <> Some sid.
Proof.
  intros Hs Hb. destruct (streams_step e w) as [Hst Hbd]. split.
  - destruct Hst as [-> | [-> | (b & Hbw & ->)]].
    + exact Hs.
    + apply lookup_app_l_Some. exact Hs.
    + rewrite list_lookup_alter_ne; [exact Hs | congruence].
  - destruct Hbd as [-> | [-> | ->]].
    + discriminate.
    + exact Hb.
    + intros [= E]. apply lookup_lt_Some in Hs. lia.
Qed.

(** X12: a stream that is not the one bound to the preview is out of reach:
    whatever happens next, its tracks are left as they are and the preview
    is never bound to it again.  A live stream in that position stays live
    for good. *)
Theorem unbound_stream_never_stopped
    (es : list Event) (w : World) (sid : nat) (s : MediaStream) :
  streams w !! sid = Some s ->
  boundStream w <> Some sid ->
  streams (run es w) !! sid = Some s /\ boundStream (run es w) <> Some sid.
Proof.
  revert w. induction es as [|e es IH]; intros w Hs Hb; [split; assumption|].
  destruct (unbound_stream_step e w sid s Hs Hb) as [Hs' Hb'].
  exact (IH (step e w) Hs' Hb').
Qed.

Lemma unbound_stream_never_stopped_witness :
  streams panelClosed !! 0%nat = Some [live]
  /\ boundStream panelClosed <> Some 0%nat
  /\ streams (run [OpenImageUpload; ClickCapture someDataUrl; ClickDone; Back] panelClosed)
       !! 0%nat = Some [live].
Proof.
  assert (Hs : streams panelClosed !! 0%nat = Some [live]) by (vm_compute; reflexivity).
  assert (Hb : boundStream panelClosed <> Some 0%nat) by (vm_compute; discriminate).
  split; [exact Hs|]. split; [exact Hb|].
  exact (proj1 (unbound_stream_never_stopped
                  [OpenImageUpload; ClickCapture someDataUrl; ClickDone; Back]
                  panelClosed 0%nat [live] Hs Hb)).
Defined.

(** X11: closing the image panel and leaving the chat stop no track: every
    stream is as before and the count of live streams is unchanged, while
    the preview, and with it the binding to the stream, is gone. *)
Theorem closing_or_leaving_stops_no_stream (w : World) :
  (streams (step ClickDone w) = streams w
   /\ liveStreams (step ClickDone w) = liveStreams w
   /\ boundStream (step ClickDone w) = None)
  /\ (streams (step Back w) = streams w
      /\ liveStreams (step Back w) = liveStreams w
      /\ boundStream (step Back w) = None).
Proof.
  split.
  - destruct w as [clk tms sts pm pr con nxt [[slf prp [msgs inp siu cap vid can]]|]];
      [destruct siu|]; (split; [|split]); unfold liveStreams; open_render; open_step;
      crunch; reflexivity.
  - rewrite step_Back. split; [|split]; reflexivity.
Qed.

(** X10: a camera grant that arrives when the chat that asked is no longer
    showing the image panel (the panel was closed, or the chat left) opens
    the stream all the same: one more live stream exists, and nothing in
    the world refers to it. *)
Theorem late_grant_opens_unreferenced_stream (w : World) (i : nat) (rest : list nat) :
  pendingMedia w = i :: rest ->
  (forall m, chat w = Some m -> self m = i -> videoRef (hooks m) = None) ->
  handle (MediaSettles Granted) w
  = withStreams (streams w ++ [[live]]) (withPendingMedia rest w)
  /\ liveStreams (step (MediaSettles Granted) w) = S (liveStreams w)
  /\ boundStream (handle (MediaSettles Granted) w) = boundStream w.
Proof.
  intros Hp Hv.
  assert (E : handle (MediaSettles Granted) w
              = withStreams (streams w ++ [[live]]) (withPendingMedia rest w)).
  { destruct w as [clk tms sts pm pr con nxt [[slf prp [msgs inp siu cap vid can]]|]];
      simpl in Hp; subst pm.
    - destruct (Nat.eqb_spec slf i) as [e|ne].
      + specialize (Hv _ eq_refl e). simpl in Hv. subst vid.
        open_step. crunch; reflexivity.
      + apply Nat.eqb_neq in ne. open_step.
        do 4 (run_handler_once; rewrite ?ne). reflexivity.
    - open_step. crunch; reflexivity. }
  split; [exact E|]. split.
  - unfold step. change (liveStreams (render (handle (MediaSettles Granted) w)))
      with (liveStreams (handle (MediaSettles Granted) w)).
    rewrite E. exact (liveStreams_newStream (withPendingMedia rest w)).
  - rewrite E. reflexivity.
Qed.

Lemma late_grant_opens_unreferenced_stream_witness :
  pendingMedia askedThenClosed = [0%nat]
  /\ liveStreams askedThenClosed = 0%nat
  /\ liveStreams (step (MediaSettles Granted) askedThenClosed) = 1%nat
  /\ boundStream (step (MediaSettles Granted) askedThenClosed) = None.
Proof.
  assert (Hp : pendingMedia askedThenClosed = [0%nat]) by (vm_compute; reflexivity).
  assert (Hv : forall m, chat askedThenClosed = Some m -> self m = 0%nat ->
                         videoRef (hooks m) = None).
  { intros m Hm _. vm_compute in Hm. injection Hm as <-. reflexivity. }
  split; [exact Hp|]. split; [vm_compute; reflexivity|]. split.
  - exact (proj1 (proj2
      (late_grant_opens_unreferenced_stream askedThenClosed 0%nat [] Hp Hv))).
  - vm_compute. reflexivity.
Defined.

(** ** Renders and refs *)

Ltac open_all := open_render; open_step; open_render.

Lemma render_render (w : World) : render (render w) = render w.
Proof.
  destruct w as [clk tms sts pm pr con nxt [[slf prp [msgs inp siu cap vid can]]|]];
    [|reflexivity].
  destruct siu, vid, can; reflexivity.
Qed.

Lemma render_reachable (w : World) : reachable w -> render w = w.
Proof. intros [|e w' _]; [reflexivity | apply render_render]. Qed.

(** X6: in every reachable world the [<video>] and [<canvas>] elements are
    mounted exactly while the image panel is shown; so the capture button,
    whenever it can be clicked, passes the guard of [captureImage] and
    stages the image, and the timeline is untouched. *)
Theorem capture_button_always_stages (w : World) (m : ChatInstance) (url : JsString) :
  reachable w ->
  chat w = Some m ->
  (if showImageUpload (hooks m)
   then videoRef (hooks m) <> None /\ canvasRef (hooks m) <> None
   else videoRef (hooks m) = None /\ canvasRef (hooks m) = None)
  /\ (showImageUpload (hooks m) = true ->
      peek (step (ClickCapture url) w) = Some url
      /\ snapshot (step (ClickCapture url) w) = snapshot w).
Proof.
  intros Hr Hm. apply render_reachable in Hr.
  destruct w as [clk tms sts pm pr con nxt ch]. simpl in Hm. subst ch.
  destruct m as [slf prp [msgs inp siu cap vid can]].
  injection Hr as Hv Hc. cbn [showImageUpload videoRef canvasRef hooks] in *.
  destruct siu.
  - split; [split; congruence|]. intros _.
    destruct vid as [v|]; [|discriminate]. destruct can as [c|]; [|discriminate].
    split; open_all; crunch; reflexivity.
  - split; [split; congruence | discriminate].
Qed.

Lemma capture_button_always_stages_witness :
  reachable panelOpen
  /\ chat panelOpen = Some (mounted_in panelOpen)
  /\ peek (step (ClickCapture someDataUrl) panelOpen) = Some someDataUrl.
Proof.
  assert (Hr : reachable panelOpen).
  { unfold panelOpen. apply reachable_run. apply reachable_init. }
  assert (Hc : chat panelOpen = Some (mounted_in panelOpen)) by (vm_compute; reflexivity).
  split; [exact Hr|]. split; [exact Hc|].
  exact (proj1 (proj2 (capture_button_always_stages panelOpen (mounted_in panelOpen)
                         someDataUrl Hr Hc) eq_refl)).
Defined.

(** Open a reachable world with a mounted chat into its fields. *)
Ltac open_world w m Hr Hm :=
  apply render_reachable in Hr;
  destruct w as [clk tms sts pm pr con nxt ch]; simpl in Hm; subst ch;
  destruct m as [slf prp [msgs inp siu cap vid can]];
  injection Hr as Hvid Hcan;
  cbn [showImageUpload videoRef canvasRef hooks messages inputMessage
       capturedImage self props timers clock streams console pendingMedia
       pendingReads nextInstance chat] in *.

(** X7: an image captured in the panel is sent once the panel is closed:
    capture, done, send appends one user message carrying the typed text and
    the captured image, empties the staging area and arms one reply. *)
Theorem capture_done_send (w : World) (m : ChatInstance) (url : JsString) :
  reachable w ->
  chat w = Some m ->
  showImageUpload (hooks m) = true ->
  truthy url = true ->
  let w' := run [ClickCapture url; ClickDone; ClickSend] w in
  snapshot w' = snapshot w
                ++ [{| text := inputMessage (hooks m); sender := user; image := Some url |}]
  /\ peek w' = None
  /\ timers w' = timers w ++ [{| due := clock w + 1000; callback := ReplyTo (self m) |}].
Proof.
  intros Hr Hm Hs Hu w'. subst w'. open_world w m Hr Hm. subst siu.
  destruct vid as [v|]; [|discriminate]. destruct can as [c|]; [|discriminate].
  unfold run. cbn [fold_left].
  repeat split; open_all; unfold newMessage; crunch;
    cbn [truthyOpt] in *; rewrite ?Hu, ?orb_true_r in *;
    first [reflexivity | discriminate].
Qed.

Lemma capture_done_send_witness :
  reachable panelOpen
  /\ chat panelOpen = Some (mounted_in panelOpen)
  /\ snapshot (run [ClickCapture someDataUrl; ClickDone; ClickSend] panelOpen)
     = snapshot panelOpen
       ++ [{| text := inputMessage (hooks (mounted_in panelOpen)); sender := user;
              image := Some someDataUrl |}].
Proof.
  assert (Hr : reachable panelOpen).
  { unfold panelOpen. apply reachable_run. apply reachable_init. }
  assert (Hc : chat panelOpen = Some (mounted_in panelOpen)) by (vm_compute; reflexivity).
  split; [exact Hr|]. split; [exact Hc|].
  exact (proj1 (capture_done_send panelOpen (mounted_in panelOpen) someDataUrl
                  Hr Hc eq_refl eq_refl)).
Defined.

(** ** Importing a file *)

(** X8: a file chosen in the image panel is staged only when its read has
    ended well: choosing no file changes nothing, a read under way stages
    nothing yet, a failed read leaves the world as it was, and a read that
    ends well stages the file, also over an image captured in the
    meantime. *)
Theorem file_import_stages_on_load (w : World) (m : ChatInstance) (url : JsString) :
  reachable w ->
  chat w = Some m ->
  showImageUpload (hooks m) = true ->
  pendingReads w = [] ->
  step (ChooseFile None) w = w
  /\ peek (step (ChooseFile (Some url)) w) = peek w
  /\ peek (run [ChooseFile (Some url); ReadSettles true] w) = Some url
  /\ run [ChooseFile (Some url); ReadSettles false] w = w
  /\ (forall shot,
        peek (run [ChooseFile (Some url); ClickCapture shot; ReadSettles true] w)
        = Some url).
Proof.
  intros Hr Hm Hs Hp. open_world w m Hr Hm. subst siu pr.
  destruct vid as [v|]; [|discriminate]. destruct can as [c|]; [|discriminate].
  unfold run. cbn [fold_left].
  repeat split; intros; open_all; crunch; reflexivity.
Qed.

Lemma file_import_stages_on_load_witness :
  reachable panelOpen
  /\ chat panelOpen = Some (mounted_in panelOpen)
  /\ peek (run [ChooseFile (Some someDataUrl); ReadSettles true] panelOpen)
     = Some someDataUrl.
Proof.
  assert (Hr : reachable panelOpen).
  { unfold panelOpen. apply reachable_run. apply reachable_init. }
  assert (Hc : chat panelOpen = Some (mounted_in panelOpen)) by (vm_compute; reflexivity).
  split; [exact Hr|]. split; [exact Hc|].
  exact (proj1 (proj2 (proj2
    (file_import_stages_on_load panelOpen (mounted_in panelOpen) someDataUrl
       Hr Hc eq_refl eq_refl)))).
Defined.

(** ** Starting the camera *)

(** X9: starting the camera from the image panel, with no request under
    way: when the camera is granted the preview is bound to a new stream
    that is live; when it is refused one error is logged and the world is
    otherwise as it was: no stream, no change of the chat, the panel still
    open for a file. *)
Theorem camera_start_granted_or_refused (w : World) (m : ChatInstance) :
  reachable w ->
  chat w = Some m ->
  showImageUpload (hooks m) = true ->
  pendingMedia w = [] ->
  (boundStream (run [ClickStartCamera; MediaSettles Granted] w) = Some (length (streams w))
   /\ cameraActive (run [ClickStartCamera; MediaSettles Granted] w) = true
   /\ console (run [ClickStartCamera; MediaSettles Granted] w) = console w)
  /\ run [ClickStartCamera; MediaSettles Refused] w
     = withConsole (console w ++ [CameraStartFailed]) w.
Proof.
  intros Hr Hm Hs Hp. open_world w m Hr Hm. subst siu pm.
  destruct vid as [v|]; [|discriminate]. destruct can as [c|]; [|discriminate].
  unfold run. cbn [fold_left].
  repeat split; unfold cameraActive; open_all; crunch;
    rewrite ?list_lookup_middle by reflexivity; reflexivity.
Qed.

Lemma camera_start_granted_or_refused_witness :
  reachable panelOpen
  /\ chat panelOpen = Some (mounted_in panelOpen)
  /\ run [ClickStartCamera; MediaSettles Refused] panelOpen
     = withConsole (console panelOpen ++ [CameraStartFailed]) panelOpen.
Proof.
  assert (Hr : reachable panelOpen).
  { unfold panelOpen. apply reachable_run. apply reachable_init. }
  assert (Hc : chat panelOpen = Some (mounted_in panelOpen)) by (vm_compute; reflexivity).
  split; [exact Hr|]. split; [exact Hc|].
  exact (proj2 (camera_start_granted_or_refused panelOpen (mounted_in panelOpen)
                  Hr Hc eq_refl eq_refl)).
Defined.

(** ** When a send goes through, and when its reply comes *)

(** X1: a send changes the world exactly when the text has a character that
    is not white space or a non-empty image is staged. *)
Theorem send_goes_through_iff (w : World) (m : ChatInstance) :
  chat w = Some m ->
  exec (handleSendMessage (self m) (hooks m)) w <> w
  <-> existsb (fun c => negb (isWhiteSpace c)) (inputMessage (hooks m))
      || truthyOpt (capturedImage (hooks m)) = true.
Proof.
  intros Hm. rewrite <- truthy_trim.
  destruct (truthy (trim (inputMessage (hooks m)))
            || truthyOpt (capturedImage (hooks m))) eqn:Hg.
  - split; [reflexivity|]. intros _ E.
    rewrite (handleSendMessage_accepted w m Hm Hg) in E.
    apply (f_equal (fun x => length (timers x))) in E. simpl in E.
    rewrite length_app in E. simpl in E. lia.
  - split; [|discriminate]. intros E. exfalso. apply E.
    unfold exec. rewrite (handleSendMessage_refused w _ _ Hg). reflexivity.
Qed.

Lemma send_goes_through_iff_witness :
  chat typedHi = Some (mounted_in typedHi)
  /\ exec (handleSendMessage (self (mounted_in typedHi)) (hooks (mounted_in typedHi)))
       typedHi <> typedHi.
Proof.
  assert (Hc : chat typedHi = Some (mounted_in typedHi)) by (vm_compute; reflexivity).
  split; [exact Hc|].
  apply (proj2 (send_goes_through_iff typedHi (mounted_in typedHi) Hc)).
  vm_compute. reflexivity.
Defined.

(** X2: with no reply outstanding, a send that goes through is answered
    exactly 1000 ms later: until then the timeline ends with the user
    message and the reply is still armed; from then on the reply follows
    the user message and the timer queue is empty. *)
Theorem reply_arrives_after_delay (w : World) (m : ChatInstance) (dt : N) :
  chat w = Some m ->
  showImageUpload (hooks m) = false ->
  accepts (hooks m) = true ->
  timers w = [] ->
  let w' := run [ClickSend; Advance dt] w in
  snapshot w' = snapshot w ++ newMessage (hooks m)
                              :: (if 1000 <=? dt then [reply] else [])
  /\ timers w' = (if 1000 <=? dt then []
                  else [{| due := clock w + 1000; callback := ReplyTo (self m) |}]).
Proof.
  intros Hm Hs Ha Ht w'. subst w'. unfold run. cbn [fold_left].
  assert (Hb : ClickSend <> Back) by discriminate.
  assert (Hb' : Advance dt <> Back) by discriminate.
  destruct (step_appends ClickSend w m Hm Hb) as (m1 & Hc1 & Hs1 & Hms1).
  destruct (step_appends (Advance dt) _ m1 Hc1 Hb') as (m2 & Hc2 & _ & Hms2).
  assert (Happ : appended ClickSend w = [newMessage (hooks m)]).
  { unfold appended. rewrite Hm, Hs. unfold accepts in Ha. rewrite Ha. reflexivity. }
  assert (Ht1 : timers (step ClickSend w)
                = [{| due := clock w + 1000; callback := ReplyTo (self m) |}]).
  { rewrite timers_step. cbn [timersAfter]. rewrite Happ, Ht.
    unfold selfOf. rewrite Hm. reflexivity. }
  assert (Hk : clock (step ClickSend w) = clock w) by (rewrite clock_step; reflexivity).
  assert (Hd : isDue (clock w + dt)
                 {| due := clock w + 1000; callback := ReplyTo (self m) |}
               = (1000 <=? dt)).
  { unfold isDue. cbn [due].
    destruct (N.leb_spec (clock w + 1000) (clock w + dt));
      destruct (N.leb_spec 1000 dt); try reflexivity; lia. }
  split.
  - rewrite (snapshot_mounted _ _ Hc2), Hms2, Hms1, (snapshot_mounted _ _ Hm), Happ.
    rewrite <- app_assoc. f_equal. cbn [app]. f_equal.
    unfold appended. rewrite Hc1, Ht1, Hk. cbn [List.filter]. rewrite Hd.
    cbn [callback targetOf]. rewrite Hs1, Nat.eqb_refl.
    destruct (1000 <=? dt); reflexivity.
  - rewrite timers_step. cbn [timersAfter]. rewrite Ht1, Hk. cbn [List.filter].
    rewrite Hd. destruct (1000 <=? dt); reflexivity.
Qed.

Lemma reply_arrives_after_delay_witness :
  chat typedHi = Some (mounted_in typedHi)
  /\ snapshot (run [ClickSend; Advance 999] typedHi)
     = snapshot typedHi ++ [newMessage (hooks (mounted_in typedHi))]
  /\ snapshot (run [ClickSend; Advance 1000] typedHi)
     = snapshot typedHi ++ [newMessage (hooks (mounted_in typedHi)); reply].
Proof.
  assert (Hc : chat typedHi = Some (mounted_in typedHi)) by (vm_compute; reflexivity).
  split; [exact Hc|]. split.
  - exact (proj1 (reply_arrives_after_delay typedHi (mounted_in typedHi) 999
                    Hc eq_refl eq_refl eq_refl)).
  - exact (proj1 (reply_arrives_after_delay typedHi (mounted_in typedHi) 1000
                    Hc eq_refl eq_refl eq_refl)).
Defined.

(** ** A new chat is on its own *)

Lemma pendingKnown_step (e : Event) (w : World) :
  wellFormed w -> pendingKnown w -> pendingKnown (step e w).
Proof.
  intros [_ Hc] [Hm Hr]. unfold pendingKnown.
  by_events w e rewrite_advance.
  all: cbn [chat self nextInstance pendingMedia pendingReads] in Hc, Hm, Hr.
  all: open_step; crunch.
  all: cbn [fst] in *;
    repeat match goal with
           | H : Forall _ (_ :: _) |- _ => inversion H; subst; clear H
           end;
    split; try assumption;
    try (apply Forall_app; split; [assumption | repeat constructor; assumption]);
    try (eapply List.Forall_impl; [|eassumption]; intros x Hx; try destruct x;
         cbn in *; lia).
Qed.

Lemma reachable_pendingKnown (w : World) : reachable w -> pendingKnown w.
Proof.
  induction 1 as [|e w Hr IH]; [split; constructor|].
  apply pendingKnown_step; [apply reachable_wellFormed; exact Hr | exact IH].
Qed.

(** X13: a chat opened after another was left starts from the initial state
    (no message, no text, no staged image, panel closed), and nothing begun
    in an earlier chat changes it on completing: not a file read, not a
    camera request, not a reply timer. *)
Theorem new_chat_is_fresh_and_isolated (w : World) (s : Stylist) :
  reachable w ->
  let w2 := run [Back; SelectStylist s] w in
  chat w2 = Some {| self := nextInstance w; props := s; hooks := initialChat |}
  /\ (forall ok, chat (step (ReadSettles ok) w2) = chat w2)
  /\ (forall o, chat (step (MediaSettles o) w2) = chat w2)
  /\ (forall dt, chat (step (Advance dt) w2) = chat w2).
Proof.
  intros Hr w2.
  destruct (reachable_wellFormed w Hr) as [Ht _].
  destruct (reachable_pendingKnown w Hr) as [Hpm Hpr].
  assert (E : w2 = mount s (withChat None w)).
  { subst w2. unfold run. cbn [fold_left]. rewrite step_Back.
    destruct w as [clk tms sts pm pr con nxt ch]. reflexivity. }
  rewrite E. clear E w2.
  destruct w as [clk tms sts pm pr con nxt ch].
  cbn [timers pendingMedia pendingReads nextInstance] in Ht, Hpm, Hpr.
  split; [reflexivity|]. split; [|split].
  - intros ok. destruct pr as [|[i url] rest]; [reflexivity|].
    inversion Hpr as [|? ? Hi _]; subst. cbn [fst] in Hi.
    assert (Hne : Nat.eqb nxt i = false) by (apply Nat.eqb_neq; lia).
    destruct ok; open_step; unfold withChat;
      do 4 (run_handler_once; cbn [fmap option_fmap option_map]; rewrite ?Hne);
      reflexivity.
  - intros o. destruct pm as [|i rest]; [reflexivity|].
    inversion Hpm as [|? ? Hi _]; subst.
    assert (Hne : Nat.eqb nxt i = false) by (apply Nat.eqb_neq; lia).
    destruct o; open_step; unfold withChat;
      do 4 (run_handler_once; cbn [fmap option_fmap option_map]; rewrite ?Hne);
      reflexivity.
  - intros dt. set (w2 := mount s _).
    assert (Hm2 : chat w2 = Some {| self := nxt; props := s; hooks := initialChat |})
      by reflexivity.
    rewrite step_Advance, (advance_mounted dt w2 _ Hm2).
    rewrite (appended_advance_later dt w2 _ Hm2); [reflexivity | exact Ht].
Qed.

Lemma new_chat_is_fresh_and_isolated_witness :
  reachable sentHi
  /\ chat (step (Advance 1000) (run [Back; SelectStylist hanako] sentHi))
     = chat (run [Back; SelectStylist hanako] sentHi).
Proof.
  assert (Hr : reachable sentHi).
  { unfold sentHi. apply reachable_run. apply reachable_init. }
  split; [exact Hr|].
  exact (proj2 (proj2 (proj2 (new_chat_is_fresh_and_isolated sentHi hanako Hr))) 1000).
Defined.

(** ** The image panel and the text row *)

(** X14: the image panel and the text row exclude each other.  While the
    panel is open, typing and sending do nothing (the world is unchanged);
    while it is closed, the camera, capture, file, done and discard
    controls do nothing.  Opening and closing the panel keep the timeline,
    the typed text, the staged image and the timers. *)
Theorem panel_and_text_row_exclusive (w : World) (m : ChatInstance) :
  reachable w ->
  chat w = Some m ->
  (showImageUpload (hooks m) = true ->
     forall v, step (TypeText v) w = w /\ step ClickSend w = w)
  /\ (showImageUpload (hooks m) = false ->
        forall url file,
          step (ClickCapture url) w = w /\ step ClickStartCamera w = w
          /\ step (ChooseFile file) w = w /\ step ClickDone w = w
          /\ step DiscardCaptured w = w)
  /\ (forall e, e = OpenImageUpload \/ e = ClickDone ->
        snapshot (step e w) = snapshot w
        /\ peek (step e w) = peek w
        /\ typed (step e w) = typed w
        /\ timers (step e w) = timers w).
Proof.
  intros Hr Hm. open_world w m Hr Hm. split; [|split].
  - intros ->. destruct vid as [v0|]; [|discriminate].
    destruct can as [c|]; [|discriminate].
    intros v. split; open_all; crunch; reflexivity.
  - intros ->. destruct vid as [v0|]; [discriminate|].
    destruct can as [c|]; [discriminate|].
    intros url file. repeat split; open_all; crunch; reflexivity.
  - intros e [-> | ->]; destruct siu; (split; [|split; [|split]]);
      unfold typed; open_all; crunch; reflexivity.
Qed.

Lemma panel_and_text_row_exclusive_witness :
  reachable panelOpen
  /\ chat panelOpen = Some (mounted_in panelOpen)
  /\ step ClickSend panelOpen = panelOpen.
Proof.
  assert (Hr : reachable panelOpen).
  { unfold panelOpen. apply reachable_run. apply reachable_init. }
  assert (Hc : chat panelOpen = Some (mounted_in panelOpen)) by (vm_compute; reflexivity).
  split; [exact Hr|]. split; [exact Hc|].
  exact (proj2 (proj1 (panel_and_text_row_exclusive panelOpen (mounted_in panelOpen) Hr Hc)
                  eq_refl hi)).
Defined.

(** * Clicks before the re-render *)

Ltac open_closure :=
  unfold handleClosure, onChatWith; open_step.

Lemma handleClosure_current (e : Event) (w : World) (m : ChatInstance) :
  chat w = Some m -> handleClosure (hooks m) e w = handle e w.
Proof.
  intros Hm. destruct e; unfold handleClosure, handle, onChatWith, onChat;
    rewrite ?Hm; reflexivity.
Qed.

Lemma handleClosure_unmounted (r : ChatState) (e : Event) (w : World) :
  chat w = None -> handleClosure r e w = handle e w.
Proof.
  intros Hm. destruct e; unfold handleClosure, handle, onChatWith, onChat;
    rewrite ?Hm; reflexivity.
Qed.

(** What a click or a key stroke does to the messages and the timers when
    its handler was made by render [r]: nothing, or, for a send that passes
    the guard on [r], the messages become those of [r] with the new message
    and one timer is armed. *)
Lemma handleClosure_effect (r : ChatState) (e : Event) (w : World) (m : ChatInstance) :
  chat w = Some m ->
  isCallback e = false ->
  e <> Back ->
  exists m', chat (handleClosure r e w) = Some m'
    /\ self m' = self m
    /\ nextInstance (handleClosure r e w) = nextInstance w
    /\ ((messages (hooks m') = messages (hooks m)
         /\ timers (handleClosure r e w) = timers w)
        \/ (e = ClickSend /\ showImageUpload r = false /\ accepts r = true
            /\ messages (hooks m') = messages r ++ [newMessage r]
            /\ timers (handleClosure r e w)
               = timers w ++ [{| due := clock w + 1000; callback := ReplyTo (self m) |}])).
Proof.
  intros Hm Hc He.
  destruct w as [clk tms sts pm pr con nxt ch]. simpl in Hm. subst ch.
  destruct m as [slf prp [msgs inp siu cap vid can]].
  destruct r as [rmsgs rinp rsiu rcap rvid rcan].
  destruct e as [s| |v| | | | |o|url|file|ok| |dt];
    try discriminate; try congruence.
  all: unfold accepts; open_closure; crunch.
  all: eexists; split; [reflexivity|]; split; [reflexivity|]; split; [reflexivity|];
    first [ left; split; reflexivity
          | right; repeat split; assumption ].
Qed.

Lemma unanswered_repeat (k q : nat) :
  (k <= q)%nat -> unanswered q (repeat reply k) = Some (q - k)%nat.
Proof.
  revert q. induction k as [|k IH]; intros q Hk; simpl.
  - f_equal. lia.
  - destruct q as [|q]; [lia|]. rewrite IH by lia. reflexivity.
Qed.

Lemma map_reply_repeat {A} (l : list A) :
  map (fun _ => reply) l = repeat reply (length l).
Proof. induction l as [|a l IH]; simpl; [reflexivity | f_equal; exact IH]. Qed.

Lemma wellFormed_render (w : World) : wellFormed w -> wellFormed (render w).
Proof.
  intros [Ht Hc]. split; [exact Ht|].
  rewrite chat_render. destruct (chat w); [exact Hc | exact I].
Qed.

(** A render shows the messages as they are: what is owed is then read off
    the messages themselves. *)
Lemma repliesWithinOwed_rendered (w : World) :
  (forall m, chat w = Some m ->
     exists q, unanswered 0 (messages (hooks m)) = Some q
               /\ (pendingFor (self m) (timers w) <= q)%nat) ->
  repliesWithinOwed {| world := render w; closure := hooks <$> chat (render w) |}.
Proof.
  intros H. unfold repliesWithinOwed. cbn [world closure].
  rewrite chat_render. destruct (chat w) as [m|] eqn:Hm; [|exact I].
  destruct (H m eq_refl) as (q & Hq & Hp).
  cbn [fmap option_fmap option_map].
  exists 0%nat, q. rewrite app_nil_r. split; [reflexivity|]. split; [exact Hq|].
  change (timers (render w)) with (timers w).
  change (self (withHooks (reconcile (hooks m)) m)) with (self m). lia.
Qed.

Lemma liveInvariant_deliver (d : Delivery) (l : Live) :
  wellFormed (world l) /\ repliesWithinOwed l ->
  wellFormed (world (deliver d l)) /\ repliesWithinOwed (deliver d l).
Proof.
  intros [Hwf Ho]. destruct l as [w c]. cbn [world closure] in *.
  destruct d as [e|].
  - unfold deliver. cbn [world closure]. destruct (isCallback e) eqn:Hcb.
    + (* a callback: the render is left for later *)
      split; [apply wellFormed_handle; exact Hwf|].
      unfold repliesWithinOwed in *. cbn [world closure] in *.
      destruct (chat w) as [m|] eqn:Hm.
      * assert (He : e <> Back) by (intros ->; discriminate).
        destruct (handle_appends e w m Hm He) as (m' & Hc' & Hs' & Hms').
        rewrite Hc'. destruct c as [r|]; [|contradiction].
        destruct Ho as (k & q & Hmsg & Hq & Hle).
        change (timers (handle e w)) with (timers (step e w)).
        rewrite timers_step, Hs'.
        destruct e; try discriminate.
        -- exists k, q. rewrite Hms', Hmsg. unfold appended. rewrite Hm, app_nil_r.
           auto.
        -- exists k, q. rewrite Hms', Hmsg. unfold appended. rewrite Hm, app_nil_r.
           auto.
        -- cbn [timersAfter].
           set (L := List.filter
                       (fun tm => isDue (clock w + dt) tm
                                  && Nat.eqb (self m) (targetOf (callback tm)))
                       (timers w)).
           exists (k + length L)%nat, q. split; [|split; [exact Hq|]].
           ++ rewrite Hms', Hmsg. unfold appended. rewrite Hm. fold L.
              rewrite map_reply_repeat, repeat_app, app_assoc. reflexivity.
           ++ rewrite (pendingFor_split (self m) (clock w + dt) (timers w)) in Hle.
              fold L in Hle. lia.
      * destruct e; try discriminate.
        -- cbn [handle]. destruct (pendingMedia w) as [|i rest]; [rewrite Hm; exact I|].
           change (chat (exec (startCamera_resume i o) (withPendingMedia rest w)))
             with (chat (handle (MediaSettles o)
                           (withPendingMedia (i :: rest) w))).
           pose proof (chat_step_unmounted (MediaSettles o)
                         (withPendingMedia (i :: rest) w) Hm) as E.
           unfold step in E. rewrite chat_render in E.
           destruct (chat (handle (MediaSettles o) (withPendingMedia (i :: rest) w)));
             [discriminate | exact I].
        -- pose proof (chat_step_unmounted (ReadSettles ok) w Hm) as E.
           unfold step in E. rewrite chat_render in E.
           destruct (chat (handle (ReadSettles ok) w)); [discriminate | exact I].
        -- pose proof (chat_step_unmounted (Advance dt) w Hm) as E.
           unfold step in E. rewrite chat_render in E.
           destruct (chat (handle (Advance dt) w)); [discriminate | exact I].
    + (* a click or a key stroke: the handler of the last render, then a render *)
      destruct (chat w) as [m|] eqn:Hm.
      * unfold repliesWithinOwed in Ho. cbn [world closure] in Ho. rewrite Hm in Ho.
        destruct c as [r|]; [|contradiction].
        destruct Ho as (k & q & Hmsg & Hq & Hle).
        assert (Hcur : unanswered 0 (messages (hooks m)) = Some (q - k)%nat).
        { rewrite Hmsg, unanswered_app, Hq. apply unanswered_repeat. lia. }
        destruct (Event_eq_Back e) as [->|He].
        { cbn [handleClosure]. fold (step Back w). rewrite step_Back.
          split; [|exact I].
          destruct Hwf as [Ht _]. split; [exact Ht | exact I]. }
        destruct (handleClosure_effect r e w m Hm Hcb He)
          as (m' & Hc' & Hs' & Hn' & Heff).
        destruct Hwf as [Ht Hself]. rewrite Hm in Hself.
        split.
        -- apply wellFormed_render. split.
           ++ rewrite Hn'. destruct Heff as [[_ ->] | (_ & _ & _ & _ & ->)];
                [exact Ht|].
              apply Forall_app. split; [exact Ht|]. repeat constructor. exact Hself.
           ++ rewrite Hc', Hs', Hn'. exact Hself.
        -- apply repliesWithinOwed_rendered. intros m'' Hm''.
           rewrite Hc' in Hm''. injection Hm'' as <-. rewrite Hs'.
           destruct Heff as [[-> ->] | (_ & _ & _ & -> & ->)].
           ++ exists (q - k)%nat. split; [exact Hcur | lia].
           ++ exists (S q). split.
              ** rewrite unanswered_app, Hq. reflexivity.
              ** rewrite pendingFor_app. unfold pendingFor at 2. cbn.
                 rewrite Nat.eqb_refl. cbn. lia.
      * assert (E : match c with
                    | Some r => handleClosure r e w
                    | None => handle e w
                    end = handle e w).
        { destruct c; [apply handleClosure_unmounted; exact Hm | reflexivity]. }
        rewrite E. fold (step e w).
        split; [apply wellFormed_step; exact Hwf|].
        unfold step. apply repliesWithinOwed_rendered. intros m' Hm'.
        pose proof (chat_step_unmounted e w Hm) as Hs. unfold step in Hs.
        rewrite chat_render, Hm' in Hs.
        destruct e; try discriminate.
        clear Hs E. destruct Hwf as [Ht _].
        destruct w as [clk tms sts pm pr con nxt ch]. simpl in Hm. subst ch.
        cbn in Hm'. injection Hm' as <-. cbn [hooks self messages initialChat].
        exists 0%nat. split; [reflexivity|].
        cbn [timers nextInstance] in *. rewrite pendingFor_none; [lia | exact Ht].
  - (* the scheduled render *)
    unfold deliver. cbn [world closure].
    split; [apply wellFormed_render; exact Hwf|].
    apply repliesWithinOwed_rendered. intros m Hm.
    unfold repliesWithinOwed in Ho. cbn [world closure] in Ho. rewrite Hm in Ho.
    destruct c as [r|]; [|contradiction].
    destruct Ho as (k & q & Hmsg & Hq & Hle).
    exists (q - k)%nat. split; [|lia].
    rewrite Hmsg, unanswered_app, Hq. apply unanswered_repeat. lia.
Qed.

Lemma liveReachable_invariant (l : Live) :
  liveReachable l -> wellFormed (world l) /\ repliesWithinOwed l.
Proof.
  induction 1 as [|d l _ IH]; [|apply liveInvariant_deliver; exact IH].
  split; [apply wellFormed_initial | exact I].
Qed.

Lemma liveReachable_deliverAll (ds : list Delivery) (l : Live) :
  liveReachable l -> liveReachable (deliverAll ds l).
Proof.
  revert l. induction ds as [|d ds IH]; intros l H; [exact H|].
  apply (IH (deliver d l)). constructor. exact H.
Qed.

(** C4: the code breaks the claim.  A first message is sent and a second
    typed; the timer of the first delivers its reply, so the timeline is the
    first message and the reply.  The send button is then clicked before the
    re-render: [handleSendMessage] sets the messages to those of the last
    render with the new message, and the reply is gone from the timeline.
    Clicked after the re-render, the same send keeps it. *)
Theorem stale_send_drops_reply :
  snapshot (world (deliverAll replyDelivered initialLive))
  = [{| text := hi; sender := user; image := None |}; reply]
  /\ snapshot (world (deliverAll replyThenSendAtOnce initialLive))
     = [{| text := hi; sender := user; image := None |};
        {| text := letterB; sender := user; image := None |}]
  /\ snapshot (world (deliverAll replyThenSendAfterRender initialLive))
     = [{| text := hi; sender := user; image := None |}; reply;
        {| text := letterB; sender := user; image := None |}].
Proof. repeat (split; [vm_compute; reflexivity|]). vm_compute. reflexivity. Qed.

(** X4: in every state the application can reach, clicks before the
    re-render included, reading the timeline of the mounted chat from its
    start each reply comes after a user message not answered before it, and
    the replies in the timeline with the timers armed for the chat are never
    more than the user messages: no user message is answered twice. *)
Theorem each_reply_answers_a_user_message (l : Live) (m : ChatInstance) :
  liveReachable l ->
  chat (world l) = Some m ->
  exists q,
    unanswered 0 (messages (hooks m)) = Some q
    /\ (pendingFor (self m) (timers (world l)) <= q)%nat
    /\ (fromStylist (messages (hooks m)) + pendingFor (self m) (timers (world l))
        <= fromUser (messages (hooks m)))%nat.
Proof.
  intros Hr Hm. destruct (liveReachable_invariant l Hr) as [_ Ho].
  unfold repliesWithinOwed in Ho. rewrite Hm in Ho.
  destruct (closure l) as [r|]; [|contradiction].
  destruct Ho as (k & q & Hmsg & Hq & Hle).
  assert (Hcur : unanswered 0 (messages (hooks m)) = Some (q - k)%nat).
  { rewrite Hmsg, unanswered_app, Hq. apply unanswered_repeat. lia. }
  exists (q - k)%nat. split; [exact Hcur|]. split; [lia|].
  apply unanswered_counts in Hcur. lia.
Qed.

Lemma each_reply_answers_a_user_message_witness :
  liveReachable racedSend
  /\ chat (world racedSend) = Some (mounted_in (world racedSend))
  /\ exists q,
       unanswered 0 (messages (hooks (mounted_in (world racedSend)))) = Some q
       /\ (pendingFor (self (mounted_in (world racedSend))) (timers (world racedSend))
           <= q)%nat
       /\ (fromStylist (messages (hooks (mounted_in (world racedSend))))
           + pendingFor (self (mounted_in (world racedSend))) (timers (world racedSend))
           <= fromUser (messages (hooks (mounted_in (world racedSend)))))%nat.
Proof.
  assert (Hr : liveReachable racedSend).
  { unfold racedSend. apply liveReachable_deliverAll. apply liveReachable_init. }
  assert (Hc : chat (world racedSend) = Some (mounted_in (world racedSend)))
    by (vm_compute; reflexivity).
  split; [exact Hr|]. split; [exact Hc|].
  exact (each_reply_answers_a_user_message racedSend (mounted_in (world racedSend)) Hr Hc).
Defined.

(** * The booking modal *)

Section BookingFacts.

Variable nameOf : Stylist -> JsString.

(** X15: the date and the time typed for one booking stay in the form after
    the dialog closes: a booking confirmed for one stylist and then one
    confirmed for another without touching the form are logged with the
    same date and time, and the dialog is closed after each. *)
Theorem booking_form_keeps_date_and_time
    (b : BookingState) (s1 s2 : Stylist) (d t : JsString) :
  let b1 := bookingRun nameOf [ClickBook s1; ChangeDate d; ChangeTime t; ClickConfirm] b in
  let b2 := bookingRun nameOf [ClickBook s2; ClickConfirm] b1 in
  isOpen b1 = false
  /\ isOpen b2 = false
  /\ date b2 = d /\ time b2 = t
  /\ bookingLog b2 = bookingLog b ++ [bookingLine nameOf s1 d t; bookingLine nameOf s2 d t].
Proof.
  destruct b as [s d0 t0 lg]. cbn. rewrite <- app_assoc. repeat split.
Qed.

(** X16: whatever is done with the modal, the log only grows, by exactly
    one line for each confirmation made in the open dialog; cancelling,
    closing, opening and typing log nothing, and a confirmation is never
    refused, whatever the date and the time are. *)
Theorem booking_log_one_line_per_confirmation
    (es : list BookingEvent) (b : BookingState) :
  exists lines,
    bookingLog (bookingRun nameOf es b) = bookingLog b ++ lines
    /\ length lines = confirmations nameOf es b.
Proof.
  revert b. induction es as [|e es IH]; intros b.
  - exists []. split; [symmetry; apply app_nil_r | reflexivity].
  - destruct (IH (bookingStep nameOf e b)) as (lines & Hl & Hn).
    change (bookingRun nameOf (e :: es) b)
      with (bookingRun nameOf es (bookingStep nameOf e b)).
    destruct b as [[s|] d0 t0 lg]; destruct e; cbn in *;
      first [ exists lines; split; [exact Hl | exact Hn]
            | eexists (_ :: lines); split;
              [rewrite Hl, <- app_assoc; reflexivity | simpl; rewrite Hn; reflexivity] ].
Qed.

End BookingFacts.

